(** * Frequency: word-frequency ranking for vocabulary learning

    A shallow embedding of [program.py] (English variant) and
    [chinese_processor.py] (Chinese variant): text cleaning, stop-word
    filtering, the accumulation loop of [main], [Counter] with
    [most_common], and the dictionary look-up with its exception handlers.

    Python values are modelled as follows.
    - [str]: the list of its Unicode code points ([len] is [length]).
    - [set] of [str]: stdpp's [gset].
    - [Counter]: a [dict], hence a list of (key, count) pairs in insertion
      order, which is the order [items()] iterates in.
    - [int]: [Z].
    - a call that may raise: a value of [outcome], threaded by [bind]. *)

From Stdlib Require Import ZArith List Lia Permutation Sorting.
From Stdlib Require Import String Ascii DecimalString.
From stdpp Require Import base decidable option list sorting gmap sets.

Open Scope Z_scope.

(** ** Strings *)

Abbreviation char := Z (only parsing).
Abbreviation str := (list Z) (only parsing).

(** [py "abc"] is the Python string literal ['abc'] (code points of an
    ASCII literal). *)
Fixpoint py (s : string) : str :=
  match s with
  | EmptyString => []
  | String c s' => Z.of_N (N_of_ascii c) :: py s'
  end.

Definition SPACE : char := 32.
Definition NEWLINE : char := 10.

(** ** collections.Counter *)

Abbreviation entry := (list Z * Z)%type (only parsing).

Module Counter.

(** One iteration of [Counter.update]: [self[elem] = self.get(elem, 0) + 1].
    An existing key keeps its position; a new key is appended. *)
Fixpoint incr (elem : str) (d : list entry) : list entry :=
  match d with
  | [] => [(elem, 1)]
  | (k, v) :: d' =>
      if decide (k = elem) then (k, v + 1) :: d'
      else (k, v) :: incr elem d'
  end.

(** [Counter(iterable)] *)
Definition Counter (iterable : list str) : list entry :=
  fold_left (fun d elem => incr elem d) iterable [].

(** [c[elem]]: a missing key counts 0. *)
Fixpoint get (d : list entry) (elem : str) : Z :=
  match d with
  | [] => 0
  | (k, v) :: d' => if decide (k = elem) then v else get d' elem
  end.

End Counter.

(** ** sorted, max, slices and heapq.nlargest *)

Section Sorting.
Context {A : Type}.
(** [lt x y] is Python's [key(x) < key(y)]. *)
Variable lt : A → A → bool.

(** Insert [x] after every element that is not smaller, i.e. before the
    first strictly smaller one. *)
Fixpoint insert_desc (x : A) (l : list A) : list A :=
  match l with
  | [] => [x]
  | y :: l' => if lt y x then x :: y :: l' else y :: insert_desc x l'
  end.

(** [sorted(it, key=key, reverse=True)]: descending and stable (equal
    keys keep the order of [it]). *)
Definition sorted_reverse (it : list A) : list A :=
  fold_left (fun acc x => insert_desc x acc) it [].

(** [max(it, key=key)] keeps the first maximal element: the running
    maximum is replaced only by a strictly greater item. *)
Fixpoint max_from (best : A) (it : list A) : A :=
  match it with
  | [] => best
  | x :: it' => if lt best x then max_from x it' else max_from best it'
  end.

(** [max(it, default=sentinel, key=key)]; [None] is the sentinel. *)
Definition py_max (it : list A) : option A :=
  match it with
  | [] => None
  | x :: it' => Some (max_from x it')
  end.

(** [min] of a non-empty sequence, the first minimal element. *)
Fixpoint min_from (best : A) (it : list A) : A :=
  match it with
  | [] => best
  | x :: it' => if lt x best then min_from x it' else min_from best it'
  end.
End Sorting.

(** [l[:n]] *)
Definition slice_to {A} (n : Z) (l : list A) : list A :=
  if n <? 0 then take (length l - Z.to_nat (- n)) l
  else take (Z.to_nat n) l.

(** [range(0, stop, -1)]: 0, -1, ... while greater than [stop]. *)
Definition range_down (stop : Z) : list Z :=
  map (fun i => - Z.of_nat i) (seq 0 (Z.to_nat (- stop))).

Module heapq.

(** A decorated item [(key(elem), order, elem)] of [nlargest]. *)
Abbreviation decorated := (Z * Z * (list Z * Z))%type (only parsing).

Definition dkey (d : decorated) : Z := d.1.1.
Definition dorder (d : decorated) : Z := d.1.2.
Definition delem (d : decorated) : entry := d.2.

(** Tuple comparison [a < b].  It is lexicographic; the orders of two
    items of one heap always differ, so the third component is never
    reached. *)
Definition tuple_lt (a b : decorated) : bool :=
  (dkey a <? dkey b) || ((dkey a =? dkey b) && (dorder a <? dorder b)).

(** The heap is modelled by its contents: [heap[0]] is the least item
    and [heapreplace] exchanges the least item for the new one.  The
    layout is not observable, since [nlargest] only reads [heap[0]] and
    sorts the whole list at the end. *)
Definition heapify (x : list decorated) : list decorated := x.

Definition heap0 (heap : list decorated) : option decorated :=
  match heap with
  | [] => None
  | d :: heap' => Some (min_from tuple_lt d heap')
  end.

Fixpoint remove1 (m : decorated) (heap : list decorated) : list decorated :=
  match heap with
  | [] => []
  | d :: heap' => if decide (d = m) then heap' else d :: remove1 m heap'
  end.

Definition heapreplace (heap : list decorated) (item : decorated)
  : list decorated :=
  match heap0 heap with
  | None => heap
  | Some m => item :: remove1 m heap
  end.

(** State of the scanning loop of [nlargest]. *)
Record scan := Scan { result : list decorated; top : Z; order : Z }.

Definition scan_step (key : entry → Z) (st : scan) (elem : entry) : scan :=
  let k := key elem in
  if top st <? k then
    let r := heapreplace (result st) (k, order st, elem) in
    Scan r (from_option dkey (top st) (heap0 r)) (order st - 1)
  else st.

(** [heapq.nlargest(n, iterable, key=key)] for a sized iterable.
    In the general case [zip] stops as soon as the range is exhausted, so
    the iterator [it] resumes right after the decorated items; for
    [n <= 0] the range is empty and so is the result. *)
Definition nlargest (n : Z) (iterable : list entry) (key : entry → Z)
  : list entry :=
  let lt := fun a b => key a <? key b in
  if n =? 1 then
    match py_max lt iterable with
    | None => []
    | Some r => [r]
    end
  else if Z.of_nat (length iterable) <=? n then
    slice_to n (sorted_reverse lt iterable)
  else
    let result :=
      zip_with (fun i elem => (key elem, i, elem))
        (range_down (- n)) iterable in
    let it := drop (length result) iterable in
    match heap0 (heapify result) with
    | None => []
    | Some m =>
        let st := fold_left (scan_step key) it
                    (Scan (heapify result) (dkey m) (- n)) in
        map delem (sorted_reverse tuple_lt (heapq.result st))
    end.

End heapq.

(** [Counter.most_common(n)] with an integer [n]:
    [heapq.nlargest(n, self.items(), key=itemgetter(1))]. *)
Definition most_common (c : list entry) (n : Z) : list entry :=
  heapq.nlargest n c snd.

(** [Counter(all_words).most_common(top)], the last two steps of [main]. *)
Definition top_words (all_words : list str) (top : Z) : list entry :=
  most_common (Counter.Counter all_words) top.

(** ** Exceptions *)

(** The exception classes the two programs can meet, all of them
    instances of [Exception].  The [requests_*] classes are those of
    [requests.exceptions], all of which derive from [RequestException];
    [requests_JSONDecodeError] is what [Response.json()] raises on a
    body that is not JSON.  [json_JSONDecodeError] is the parser's own
    class, a [ValueError] and not a [RequestException]; the parser also
    raises a plain [ValueError] for an integer literal beyond the digit
    limit and [RecursionError] for a document nested too deep.
    [BrokenPipeError] is what [print] raises once the reader of the
    standard output has gone. *)
Inductive exception :=
| FileNotFoundError
| UnicodeDecodeError
| PackageNotFoundError
| SrtParseError
| ValueError
| requests_ConnectionError
| requests_Timeout
| requests_TooManyRedirects
| requests_InvalidURL
| requests_JSONDecodeError
| json_JSONDecodeError
| RecursionError
| BrokenPipeError.

(** [isinstance(e, requests.exceptions.RequestException)] *)
Definition is_RequestException (e : exception) : bool :=
  match e with
  | requests_ConnectionError | requests_Timeout | requests_TooManyRedirects
  | requests_InvalidURL | requests_JSONDecodeError => true
  | _ => false
  end.

(** [isinstance(e, FileNotFoundError)] *)
Definition is_FileNotFoundError (e : exception) : bool :=
  match e with
  | FileNotFoundError => true
  | _ => false
  end.

(** [isinstance(e, json.JSONDecodeError)] *)
Definition is_json_JSONDecodeError (e : exception) : bool :=
  match e with
  | json_JSONDecodeError => true
  | _ => false
  end.

(** [isinstance(e, Exception)] *)
Definition is_Exception (e : exception) : bool := true.

Inductive outcome (A : Type) :=
| Return (a : A)
| Raise (e : exception).
Arguments Return {A} a.
Arguments Raise {A} e.

#[global] Instance outcome_bind : MBind outcome :=
  fun A B (f : A → outcome B) (m : outcome A) =>
    match m with
    | Return a => f a
    | Raise e => Raise e
    end.

(** [try: body / except cls: handler]: an exception that is not an
    instance of [cls] propagates. *)
Definition try_except {A} (body : outcome A) (cls : exception → bool)
    (handler : exception → outcome A) : outcome A :=
  match body with
  | Return a => Return a
  | Raise e => if cls e then handler e else Raise e
  end.

(** ** String helpers *)

(** [s.endswith(suffix)] *)
Definition endswith (s suffix : str) : bool :=
  bool_decide (drop (length s - length suffix) s = suffix).

(** [sep.join(parts)] *)
Fixpoint join (sep : str) (parts : list str) : str :=
  match parts with
  | [] => []
  | [p] => p
  | p :: parts' => p ++ sep ++ join sep parts'
  end.

(** The maximal runs of characters that satisfy [keep], left to right,
    with the run read so far in [cur]. *)
Fixpoint runs (keep : char → bool) (cur : str) (text : str) : list str :=
  match text with
  | [] => match cur with [] => [] | _ => [cur] end
  | c :: text' =>
      if keep c then runs keep (cur ++ [c]) text'
      else match cur with
           | [] => runs keep [] text'
           | _ => cur :: runs keep [] text'
           end
  end.

(** ASCII white space as [str.isspace] sees it: tab to carriage return,
    the four separators U+001C to U+001F, and the space. *)
Definition ascii_space (c : char) : bool :=
  ((9 <=? c) && (c <=? 13)) || ((28 <=? c) && (c <=? 32)).

(** [c.isspace()]; beyond ASCII it follows the Unicode tables of the
    interpreter, the parameter [unicode_space]. *)
Definition isspace (unicode_space : char → bool) (c : char) : bool :=
  if (0 <=? c) && (c <? 128) then ascii_space c else unicode_space c.

(** [s.lstrip()], [s.rstrip()] and [s.strip()] for a given notion of
    white space. *)
Fixpoint lstrip (space : char → bool) (s : str) : str :=
  match s with
  | [] => []
  | c :: s' => if space c then lstrip space s' else s
  end.

Definition rstrip (space : char → bool) (s : str) : str :=
  reverse (lstrip space (reverse s)).

Definition strip (space : char → bool) (s : str) : str :=
  rstrip space (lstrip space s).

(** [for line in f] over the decoded text of a file: the lines, each with
    its newline, the last one possibly without; [cur] is the line read
    so far. *)
Fixpoint iter_lines (cur : str) (text : str) : list str :=
  match text with
  | [] => match cur with [] => [] | _ => [cur] end
  | c :: text' =>
      if c =? NEWLINE then (cur ++ [c]) :: iter_lines [] text'
      else iter_lines (cur ++ [c]) text'
  end.

(** The readers behind [process_file]: [open(path, 'r',
    encoding='utf-8').read()], the paragraph texts of [Document(path)] and
    the caption texts of [pysrt.open(path)].  Each may raise. *)
Record readers := Readers {
  read_text : str → outcome str;
  docx_paragraphs : str → outcome (list str);
  srt_texts : str → outcome (list str)
}.

(** ** program.py: the English variant *)

Module English.

(** [str.lower()] and the regular expression class [\w] under
    [re.UNICODE] are fixed on ASCII; beyond it they follow the Unicode
    tables of the interpreter, which stay parameters. *)
Section TextProcessor.
Variable unicode_lower : str → str.
Variable unicode_word : char → bool.

Definition is_ascii (c : char) : bool := (0 <=? c) && (c <? 128).

Definition ascii_lower (c : char) : char :=
  if (65 <=? c) && (c <=? 90) then c + 32 else c.

(** [text.lower()] *)
Definition lower (text : str) : str :=
  if forallb is_ascii text then map ascii_lower text
  else unicode_lower text.

(** [\w]: letters, digits and the underscore. *)
Definition is_word (c : char) : bool :=
  if is_ascii c then
    ((97 <=? c) && (c <=? 122)) || ((65 <=? c) && (c <=? 90))
    || ((48 <=? c) && (c <=? 57)) || (c =? 95)
  else unicode_word c.

(** [re.compile(r'\b\w+\b', re.UNICODE).findall(text)].  A match starts
    where a word character follows a non-word character or the start of
    the text (the first [\b]); [\w+] is greedy, so it takes the whole run,
    at whose end the second [\b] holds; the scan resumes after the
    match.  The matches are the maximal runs of word characters. *)
Definition findall (text : str) : list str := runs is_word [] text.

Record TextProcessor := {
  stop_words : gset str;
  custom_filter : gset str
}.

(** [TextProcessor(language, custom_filter)], with [words] standing for
    [stopwords.words(language)]; [custom_filter or set()]. *)
Definition init (words : list str) (custom : option (gset str))
  : TextProcessor :=
  {| stop_words := list_to_set words;
     custom_filter := default ∅ custom |}.

(** The list comprehension of [_clean_text]. *)
Fixpoint filtered_words (self : TextProcessor) (words : list str)
  : list str :=
  match words with
  | [] => []
  | word :: words' =>
      if bool_decide (word ∉ stop_words self)
         && bool_decide (word ∉ custom_filter self)
      then word :: filtered_words self words'
      else filtered_words self words'
  end.

Definition _clean_text (self : TextProcessor) (text : str) : list str :=
  let text := lower text in
  let words := findall text in
  filtered_words self words.

Variable io : readers.

Definition _process_text (self : TextProcessor) (file_path : str)
  : outcome (list str) :=
  text ← read_text io file_path;
  Return (_clean_text self text).

Definition _process_docx (self : TextProcessor) (file_path : str)
  : outcome (list str) :=
  paragraphs ← docx_paragraphs io file_path;
  Return (_clean_text self (join [NEWLINE] paragraphs)).

Definition _process_srt (self : TextProcessor) (file_path : str)
  : outcome (list str) :=
  subs ← srt_texts io file_path;
  Return (_clean_text self (join [NEWLINE] subs)).

Definition process_file (self : TextProcessor) (file_path : str)
  : outcome (list str) :=
  if endswith file_path (py ".srt") then _process_srt self file_path
  else if endswith file_path (py ".docx") then _process_docx self file_path
  else _process_text self file_path.

End TextProcessor.

End English.

(** ** chinese_processor.py: the Chinese variant *)

Module Chinese.

Section ChineseTextProcessor.
(** [converter.convert] (OpenCC, Traditional to Simplified) and
    [jieba.lcut] are external. *)
Variable convert : str → str.
Variable lcut : str → list str.

(** The character class [[^\u4e00-\u9fff]]. *)
Definition non_chinese (c : char) : bool :=
  negb ((0x4e00 <=? c) && (c <=? 0x9fff)).

(** [re.sub(r'[^\u4e00-\u9fff]', ' ', text)]: every match, one character
    long, is replaced by a space; the rest is copied. *)
Fixpoint re_sub_non_chinese (text : str) : str :=
  match text with
  | [] => []
  | c :: text' =>
      if non_chinese c then SPACE :: re_sub_non_chinese text'
      else c :: re_sub_non_chinese text'
  end.

Record ChineseTextProcessor := {
  stopwords : gset str;
  custom_filter : gset str
}.

(** The list comprehension of [_process_content]. *)
Fixpoint filtered_words (self : ChineseTextProcessor) (words : list str)
  : list str :=
  match words with
  | [] => []
  | word :: words' =>
      if bool_decide (1 < length word)%nat
         && bool_decide (word ∉ stopwords self)
         && bool_decide (word ∉ custom_filter self)
      then word :: filtered_words self words'
      else filtered_words self words'
  end.

(** The text handed to the tokenizer: the first two assignments of
    [_process_content]. *)
Definition normalized (text : str) : str :=
  let text := convert text in
  let text := re_sub_non_chinese text in
  text.

Definition _process_content (self : ChineseTextProcessor) (text : str)
  : list str :=
  let text := convert text in
  let text := re_sub_non_chinese text in
  let words := lcut text in
  filtered_words self words.

Variable io : readers.

(** [str.isspace] beyond ASCII, for [line.strip()]. *)
Variable unicode_space : char → bool.

(** [_load_stopwords]: the stripped lines of the file as a set; a
    missing file gives the empty set, any other exception propagates. *)
Definition _load_stopwords (path : str) : outcome (gset (list Z)) :=
  try_except
    (text ← read_text io path;
     Return (list_to_set
               (map (strip (isspace unicode_space)) (iter_lines [] text))))
    is_FileNotFoundError
    (fun _ => Return ∅).

(** [ChineseTextProcessor(stopwords_path, custom_filter)] *)
Definition init (stopwords_path : str) (custom : option (gset (list Z)))
  : outcome ChineseTextProcessor :=
  words ← _load_stopwords stopwords_path;
  Return {| stopwords := words; custom_filter := default ∅ custom |}.

(** The readers and [process_file], as far as their results go: the
    progress lines they [print] on the console, the path among them, are
    left out, and with them an exception of [print] itself. *)
Definition _process_text (self : ChineseTextProcessor) (file_path : str)
  : outcome (list str) :=
  text ← read_text io file_path;
  Return (_process_content self text).

Definition _process_docx (self : ChineseTextProcessor) (file_path : str)
  : outcome (list str) :=
  paragraphs ← docx_paragraphs io file_path;
  Return (_process_content self (join [NEWLINE] paragraphs)).

Definition _process_srt (self : ChineseTextProcessor) (file_path : str)
  : outcome (list str) :=
  subs ← srt_texts io file_path;
  Return (_process_content self (join [NEWLINE] subs)).

Definition process_file (self : ChineseTextProcessor) (file_path : str)
  : outcome (list str) :=
  if endswith file_path (py ".srt") then _process_srt self file_path
  else if endswith file_path (py ".docx") then _process_docx self file_path
  else _process_text self file_path.

End ChineseTextProcessor.

End Chinese.

(** ** main: accumulation and ranking *)

Section Main.
Variable process_file : str → outcome (list str).

(** [for file in args.files: all_words.extend(process_file(file))].
    An exception raised by [process_file] leaves the loop: neither
    program wraps the call in a handler. *)
Fixpoint extend_all (all_words : list str) (files : list str)
  : outcome (list str) :=
  match files with
  | [] => Return all_words
  | file :: files' =>
      words ← process_file file;
      extend_all (all_words ++ words) files'
  end.

(** [main] up to [word_counts]. *)
Definition main_word_counts (files : list str) : outcome (list entry) :=
  all_words ← extend_all [] files;
  Return (Counter.Counter all_words).

(** [main] up to [top_words]. *)
Definition main_top_words (files : list str) (top : Z)
  : outcome (list entry) :=
  word_counts ← main_word_counts files;
  Return (most_common word_counts top).
End Main.

(** The same loop over token lists that were already extracted. *)
Definition accumulate (per_file : list (list str)) : list str :=
  fold_left (fun all_words words => all_words ++ words) per_file [].

(** ** Dictionary look-up *)

Record response := Response {
  status_code : Z;
  content : str
}.

Section Dictionary.
(** Parsed JSON values and [json.loads], the parser behind
    [Response.json()]: it returns the value, raises
    [json_JSONDecodeError] for a body that is not JSON, or raises
    another exception. *)
Variable json : Type.
Variable json_loads : str → outcome json.
(** [requests.get(url)] *)
Variable requests_get : str → outcome response.
(** [print(s)], which returns or raises (a closed or broken standard
    output, a console encoding without the characters of [s]), and
    [str(e)]. *)
Variable print : str → outcome unit.
Variable exception_str : exception → str.

(** [response.json()]: requests re-raises the parser's
    [JSONDecodeError] as its own and lets every other exception
    through. *)
Definition response_json (r : response) : outcome json :=
  try_except (json_loads (content r)) is_json_JSONDecodeError
    (fun _ => Raise requests_JSONDecodeError).

(** The body shared by both [get_definitions]; the result is [Some data]
    or Python's [None]. *)
Definition fetch (base_url word : str) : outcome (option json) :=
  response ← requests_get (base_url ++ word);
  if status_code response =? 200 then
    data ← response_json response;
    Return (Some data)
  else Return None.

(** [DictionaryAPI.get_definitions]: [except
    requests.exceptions.RequestException] *)
Definition DictionaryAPI_get_definitions (word : str)
  : outcome (option json) :=
  try_except
    (fetch (py "https://api.dictionaryapi.dev/api/v2/entries/en/") word)
    is_RequestException (fun _ => Return None).

(** The [try] block of [ChineseDictionaryAPI.get_definitions], which
    announces the word before the request. *)
Definition ChineseDictionaryAPI_try (word : str) : outcome (option json) :=
  _ ← print (py "Fetching definition for: " ++ word);
  fetch (py "https://api.openccce.com/cedict/") word.

(** [ChineseDictionaryAPI.get_definitions]: [except Exception as e],
    whose handler prints the error before it returns [None]. *)
Definition ChineseDictionaryAPI_get_definitions (word : str)
  : outcome (option json) :=
  try_except (ChineseDictionaryAPI_try word) is_Exception
    (fun e =>
       _ ← print (py "API Error: " ++ exception_str e);
       Return None).

End Dictionary.

(** ** program.py: the report *)

(** The values [json.loads] builds.  A float is known by whether it is
    zero and by its [str()]; the keys of a [dict] are distinct and kept
    in insertion order. *)
Unset Elimination Schemes.
Inductive pyval :=
| PNone
| PBool (b : bool)
| PInt (n : Z)
| PFloat (zero : bool) (text : list Z)
| PStr (s : list Z)
| PList (items : list pyval)
| PDict (items : list (list Z * pyval)).
Set Elimination Schemes.

(** What the report can raise besides what the look-up lets through. *)
Inductive error :=
| Propagated (e : exception)
| TypeError
| KeyError
| IndexError
| UnicodeEncodeError.

(** What the report does to the outside: [f.write(s)] and
    [dictionary.get_definitions(word)]. *)
Inductive event :=
| Write (s : list Z)
| Lookup (word : list Z).

(** A step of the report: the events it caused, and its value or the
    exception that ended it. *)
Record action (A : Type) := Action {
  events : list event;
  result : error + A
}.
Arguments Action {A} _ _.
Arguments events {A} _.
Arguments result {A} _.

#[global] Instance action_bind : MBind action :=
  fun A B (f : A → action B) (m : action A) =>
    match result m with
    | inl e => Action (events m) (inl e)
    | inr a => Action (events m ++ events (f a)) (result (f a))
    end.

(** An expression without effect. *)
Definition eval {A} (r : error + A) : action A := Action [] r.

(** [for x in l: body(x)] *)
Fixpoint for_each {A} (l : list A) (body : A → action unit) : action unit :=
  match l with
  | [] => eval (inr tt)
  | x :: l' => _ ← body x; for_each l' body
  end.

(** [bool(v)] *)
Definition truthy (v : pyval) : bool :=
  match v with
  | PNone => false
  | PBool b => b
  | PInt n => negb (n =? 0)
  | PFloat zero _ => negb zero
  | PStr s => negb (bool_decide (s = []))
  | PList items => negb (bool_decide (items = []))
  | PDict items => negb (bool_decide (items = []))
  end.

(** [iter(v)]: the items of a list, the keys of a dict, the characters
    of a string. *)
Definition iterate (v : pyval) : error + list pyval :=
  match v with
  | PList items => inr items
  | PDict items => inr (map (fun kv => PStr kv.1) items)
  | PStr s => inr (map (fun c => PStr [c]) s)
  | _ => inl TypeError
  end.

(** [key in s] for two strings: [key] is a substring of [s]. *)
Fixpoint has_substring (key s : str) : bool :=
  match s with
  | [] => bool_decide (key = [])
  | _ :: s' => bool_decide (key `prefix_of` s) || has_substring key s'
  end.

(** [key in v] for a string [key] *)
Definition contains (key : str) (v : pyval) : error + bool :=
  match v with
  | PDict items => inr (bool_decide (key ∈ items.*1))
  | PList items =>
      inr (existsb (fun x => match x with
                             | PStr s => bool_decide (s = key)
                             | _ => false
                             end) items)
  | PStr s => inr (has_substring key s)
  | _ => inl TypeError
  end.

Fixpoint dict_get (items : list (list Z * pyval)) (key : str)
  : option pyval :=
  match items with
  | [] => None
  | (k, v) :: items' => if decide (k = key) then Some v else dict_get items' key
  end.

(** [v[key]] for a string [key] *)
Definition getitem (v : pyval) (key : str) : error + pyval :=
  match v with
  | PDict items =>
      match dict_get items key with
      | Some x => inr x
      | None => inl KeyError
      end
  | _ => inl TypeError
  end.

(** [v[0]] *)
Definition getitem0 (v : pyval) : error + pyval :=
  match v with
  | PList (x :: _) => inr x
  | PList [] => inl IndexError
  | PStr (c :: _) => inr (PStr [c])
  | PStr [] => inl IndexError
  | PDict _ => inl KeyError
  | _ => inl TypeError
  end.

(** [str(n)] for an integer *)
Definition str_int (n : Z) : str := py (NilZero.string_of_int (Z.to_int n)).

(** A surrogate code point, which UTF-8 cannot encode. *)
Definition surrogate (c : char) : bool := (0xd800 <=? c) && (c <=? 0xdfff).

(** [f.write(s)] on the file opened with [encoding='utf-8'] *)
Definition write (s : str) : action unit :=
  if existsb surrogate s then Action [] (inl UnicodeEncodeError)
  else Action [Write s] (inr tt).

Section Report.
Variable json_loads : str → outcome pyval.
Variable requests_get : str → outcome response.
(** [str(v)] for a list or a dict *)
Variable repr : pyval → str.

(** [f"{v}"] *)
Definition format (v : pyval) : str :=
  match v with
  | PStr s => s
  | PInt n => str_int n
  | PFloat _ text => text
  | PNone => py "None"
  | PBool true => py "True"
  | PBool false => py "False"
  | _ => repr v
  end.

(** [dictionary.get_definitions(word)] *)
Definition get_definitions (word : str) : action (option pyval) :=
  Action [Lookup word]
    match DictionaryAPI_get_definitions pyval json_loads requests_get word with
    | Return data => inr data
    | Raise e => inl (Propagated e)
    end.

(** The body of [for meaning in entry['meanings']]. *)
Definition write_meaning (meaning : pyval) : action unit :=
  part ← eval (getitem meaning (py "partOfSpeech"));
  _ ← write (py "Part of Speech: " ++ format part ++ [NEWLINE]);
  has_definitions ← eval (contains (py "definitions") meaning);
  _ ← (if (has_definitions : bool) then
         definitions ← eval (getitem meaning (py "definitions"));
         first ← eval (getitem0 definitions);
         definition ← eval (getitem first (py "definition"));
         _ ← write (py "Definition: " ++ format definition ++ [NEWLINE]);
         has_example ← eval (contains (py "example") first);
         if (has_example : bool) then
           example ← eval (getitem first (py "example"));
           write (py "Example: " ++ format example ++ [NEWLINE])
         else eval (inr tt)
       else eval (inr tt));
  write [NEWLINE].

(** The body of [for entry in data]. *)
Definition write_entry (entry : pyval) : action unit :=
  has_meanings ← eval (contains (py "meanings") entry);
  if (has_meanings : bool) then
    meanings ← eval (getitem entry (py "meanings"));
    items ← eval (iterate meanings);
    for_each items write_meaning
  else eval (inr tt).

(** The body of [for word, count in top_words]. *)
Definition write_word (ranked : entry) : action unit :=
  let '(word, count) := ranked in
  _ ← write ([NEWLINE] ++ py "Word: " ++ word ++ py " (Frequency: "
             ++ str_int count ++ py ")" ++ [NEWLINE]);
  data ← get_definitions word;
  _ ← (if from_option truthy false data then
         items ← eval (from_option iterate (inl TypeError) data);
         for_each items write_entry
       else write (py "No definition found" ++ [NEWLINE]));
  write (replicate 50 45 ++ [NEWLINE]).

(** The [with] block of [main]. *)
Definition write_report (top_words : list entry) : action unit :=
  for_each top_words write_word.
End Report.

(** The words looked up and the strings written, in order. *)
Definition lookups (evs : list event) : list str :=
  omap (fun ev => match ev with Lookup w => Some w | _ => None end) evs.

Definition writes (evs : list event) : list str :=
  omap (fun ev => match ev with Write s => Some s | _ => None end) evs.

(** An action that looks nothing up. *)
Definition quiet {A} (a : action A) : Prop := lookups (events a) = [].

(** ** Notions used in the statements *)

(** [ws.count(t)], the true number of occurrences of [t]. *)
Fixpoint occurrences (t : str) (ws : list str) : Z :=
  match ws with
  | [] => 0
  | w :: ws' => (if decide (w = t) then 1 else 0) + occurrences t ws'
  end.

(** [ws.index(t)], the position of the first occurrence of [t]
    ([len(ws)] stands for the [ValueError] of an absent [t]). *)
Fixpoint index (t : str) (ws : list str) : nat :=
  match ws with
  | [] => 0%nat
  | w :: ws' => if decide (w = t) then 0%nat else S (index t ws')
  end.

(** The number of distinct tokens. *)
Definition distinct (ws : list str) : nat :=
  size (list_to_set ws : gset (list Z)).

(** [x] occurs at an earlier position than [y]. *)
Definition precedes {A} (l : list A) (x y : A) : Prop :=
  ∃ i j, (i < j)%nat ∧ l !! i = Some x ∧ l !! j = Some y.

(** [w] is a contiguous substring of [s]. *)
Definition substring (w s : str) : Prop :=
  ∃ before after, s = before ++ w ++ after.

(** The assumption on the segmenter, at the text it is given: every
    token is a contiguous substring of the text without a space. *)
Definition segments (lcut : str → list str) (text : str) : Prop :=
  ∀ w, w ∈ lcut text → substring w text ∧ SPACE ∉ w.

(** What [jieba.lcut] does with white space, at the text it is given:
    the tokens put together give the text back, none is empty, and a
    space is cut off as a token of its own. *)
Definition cuts (lcut : str → list str) (text : str) : Prop :=
  concat (lcut text) = text ∧
  ∀ w, w ∈ lcut text → w ≠ [] ∧ (SPACE ∈ w → w = [SPACE]).

(** A character of the CJK range U+4E00 to U+9FFF. *)
Definition chinese (c : char) : Prop := 0x4e00 ≤ c ≤ 0x9fff.

(** Comparison of two table entries by count, the key of [most_common]. *)
Definition count_lt (a b : entry) : bool := a.2 <? b.2.

(** The stop-word filter in the words of the specification: a token is
    dropped if it is in the stop-word set or in the custom filter set. *)
Definition stopword_filter_spec (stop custom : gset (list Z))
    (tokens : list str) : list str :=
  filter (fun t => ¬ (t ∈ stop ∨ t ∈ custom)) tokens.

(** The Chinese filter in the words of the specification: a token is
    also dropped if its character length is 1. *)
Definition chinese_filter_spec (stop custom : gset (list Z))
    (tokens : list str) : list str :=
  filter (fun t => ¬ (t ∈ stop ∨ t ∈ custom ∨ length t = 1%nat)) tokens.

(** The range filter in the words of the specification: every character
    outside U+4E00 to U+9FFF becomes a single space. *)
Definition range_filter_spec (text : str) : str :=
  map (fun c => if decide (chinese c) then c else SPACE) text.


(** [sum(c.values())], the total of a table. *)
Definition total (c : list entry) : Z := foldr (fun e s => e.2 + s) 0 c.

(** An upper-case ASCII letter. *)
Definition ascii_upper (c : char) : Prop := 65 ≤ c ≤ 90.

Section SortedLists.
Context {A : Type}.
Variable lt : A → A → bool.

(** Descending: no element is smaller than a later one. *)
Definition descending : list A → Prop :=
  StronglySorted (fun a b => lt a b = false).

(** Strictly descending: every element is greater than all later ones. *)
Definition strictly_descending : list A → Prop :=
  StronglySorted (fun a b => lt b a = true).
End SortedLists.

Abbreviation strict := (strictly_descending heapq.tuple_lt).

(** Every decorated item carries the key of its element and an order
    above the next order [o] to be handed out. *)
Definition well_decorated (o : Z) (D : list heapq.decorated) : Prop :=
  Forall (fun d => heapq.dkey d = (heapq.delem d).2 ∧ o < heapq.dorder d) D.

(** The scan state [st] holds the [n] greatest items of the prefix [p]
    of the iterable, [z] being the least of them. *)
Definition tracks (n : nat) (p : list entry) (st : heapq.scan) : Prop :=
  ∃ D z,
    heapq.result st ≡ₚ D ++ [z] ∧
    strict (D ++ [z]) ∧
    map heapq.delem (D ++ [z]) = take n (sorted_reverse count_lt p) ∧
    well_decorated (heapq.order st) (D ++ [z]) ∧
    heapq.top st = heapq.dkey z.

(** ** Stubs for the external capabilities *)

(** A file system with one readable text file and one whose bytes are
    not UTF-8. *)
Definition stub_readers : readers :=
  {| read_text path :=
       if decide (path = py "good.txt") then Return (py "tea and tea")
       else if decide (path = py "bad.txt") then Raise UnicodeDecodeError
       else Raise FileNotFoundError;
     docx_paragraphs _ := Raise PackageNotFoundError;
     srt_texts _ := Raise SrtParseError |}.

(** A file system whose text files all hold the same Chinese line. *)
Definition stub_chinese_readers : readers :=
  {| read_text _ :=
       Return [0x4f60; 0x597d; 0xff0c; 0x4f60; 0x597d; 32; 0x7684];
     docx_paragraphs _ := Raise PackageNotFoundError;
     srt_texts _ := Raise SrtParseError |}.

(** A segmenter that cuts at spaces. *)
Definition stub_lcut (text : str) : list str :=
  runs (fun c => negb (c =? SPACE)) [] text.

(** A segmenter that keeps every character: a space is a token of its
    own, and so is every run of other characters. *)
Fixpoint stub_cut_from (cur text : str) : list str :=
  match text with
  | [] => if cur is [] then [] else [cur]
  | c :: text =>
      if c =? SPACE then
        (if cur is [] then [] else [cur]) ++ [SPACE] :: stub_cut_from [] text
      else stub_cut_from (cur ++ [c]) text
  end.

Definition stub_cut (text : str) : list str := stub_cut_from [] text.

(** A converter that maps the compatibility ideograph U+F900 to U+5C82
    and leaves the rest. *)
Definition stub_convert (text : str) : str :=
  map (fun c => if c =? 0xf900 then 0x5c82 else c) text.

(** A dictionary service that is unreachable for one word, answers 404
    for a second, sends a number of five thousand digits for a third,
    and sends a body that is not JSON for the others. *)
Definition stub_requests_get (url : str) : outcome response :=
  if endswith url (py "/down") then Raise requests_ConnectionError
  else if endswith url (py "/missing") then Return (Response 404 (py "{}"))
  else if endswith url (py "/googol") then
    Return (Response 200 (replicate 5000 57))
  else Return (Response 200 (py "<html>")).

(** A parser that knows the empty object, refuses an integer literal
    of more than 4300 digits with [ValueError], and takes every other
    body for malformed. *)
Definition stub_json_loads (body : str) : outcome str :=
  if decide (body = py "{}") then Return body
  else if forallb (fun c => (48 <=? c) && (c <=? 57)) body
          && (4300 <? Z.of_nat (length body))
       then Raise ValueError
  else Raise json_JSONDecodeError.

(** A parser for the report that knows the empty object only. *)
Definition stub_loads (body : str) : outcome pyval :=
  if decide (body = py "{}") then Return (PDict [])
  else Raise json_JSONDecodeError.

Definition stub_print_broken (s : str) : outcome unit :=
  Raise BrokenPipeError.

(** A rendering of [str(e)]. *)
Definition stub_exception_str (e : exception) : str :=
  match e with
  | requests_ConnectionError => py "Connection refused"
  | BrokenPipeError => py "[Errno 32] Broken pipe"
  | _ => py "error"
  end.

(** * The insertion sort *)

Section SortingFacts.
Context {A : Type}.
Variable lt : A → A → bool.

Lemma sorted_reverse_snoc (l : list A) (x : A) :
  sorted_reverse lt (l ++ [x]) = insert_desc lt x (sorted_reverse lt l).
Proof. unfold sorted_reverse. by rewrite fold_left_app. Qed.

Lemma insert_desc_length (x : A) (l : list A) :
  length (insert_desc lt x l) = S (length l).
Proof.
  induction l as [|y l IH]; simpl; [done|].
  destruct (lt y x); simpl; by rewrite ?IH.
Qed.

Lemma insert_desc_perm (x : A) (l : list A) : insert_desc lt x l ≡ₚ x :: l.
Proof.
  induction l as [|y l IH]; simpl; [done|].
  destruct (lt y x); [done|]. rewrite IH. apply Permutation_swap.
Qed.

Lemma sorted_reverse_perm (l : list A) : sorted_reverse lt l ≡ₚ l.
Proof.
  induction l as [|x l IH] using rev_ind; [done|].
  rewrite sorted_reverse_snoc, insert_desc_perm, IH.
  by rewrite Permutation_app_comm.
Qed.

Lemma sorted_reverse_length (l : list A) :
  length (sorted_reverse lt l) = length l.
Proof. by rewrite sorted_reverse_perm. Qed.

(** Where the insertion point lies with respect to a prefix. *)
Lemma take_insert_desc_in (x y : A) (l : list A) (i : nat) :
  l !! i = Some y → lt y x = true →
  take (S i) (insert_desc lt x l) = insert_desc lt x (take i l).
Proof.
  revert i. induction l as [|z l IH]; intros i Hi Hy; [done|].
  destruct i as [|i]; simpl in *.
  - injection Hi as ->. by rewrite Hy.
  - destruct (lt z x) eqn:Hz; simpl.
    + done.
    + f_equal. by apply IH.
Qed.

Lemma take_insert_desc_out (x : A) (l : list A) (n : nat) :
  (n ≤ length l)%nat → Forall (fun y => lt y x = false) (take n l) →
  take n (insert_desc lt x l) = take n l.
Proof.
  revert n. induction l as [|z l IH]; intros n Hn Hall.
  - simpl in Hn. by replace n with 0%nat by lia.
  - destruct n as [|n]; [done|]. simpl in *.
    apply Forall_cons in Hall as [Hz Hall]. rewrite Hz. simpl.
    f_equal. apply IH; [lia|done].
Qed.

Lemma max_from_snoc (best x : A) (l : list A) :
  max_from lt best (l ++ [x]) =
  if lt (max_from lt best l) x then x else max_from lt best l.
Proof.
  revert best. induction l as [|y l IH]; intros best; simpl; [done|].
  by destruct (lt best y).
Qed.

Lemma head_insert_desc (x : A) (l : list A) :
  head (insert_desc lt x l) =
  match head l with
  | None => Some x
  | Some y => if lt y x then Some x else Some y
  end.
Proof. destruct l as [|y l]; simpl; [done|]. by destruct (lt y x). Qed.

Lemma py_max_head (l : list A) : py_max lt l = head (sorted_reverse lt l).
Proof.
  induction l as [|x l IH] using rev_ind; [done|].
  rewrite sorted_reverse_snoc, head_insert_desc, <- IH.
  destruct l as [|y l]; simpl; [done|].
  rewrite max_from_snoc. by destruct (lt _ x).
Qed.

Hypothesis lt_irrefl : ∀ a, lt a a = false.
Hypothesis lt_trans : ∀ a b c, lt a b = true → lt b c = true → lt a c = true.

Lemma insert_desc_descending (x : A) (l : list A) :
  descending lt l → descending lt (insert_desc lt x l).
Proof.
  induction 1 as [|y l Hl IH Hy]; simpl.
  - repeat constructor.
  - destruct (lt y x) eqn:Hyx.
    + constructor; [by constructor|].
      constructor.
      * destruct (lt x y) eqn:Hxy; [|done].
        pose proof (lt_trans _ _ _ Hyx Hxy) as Hyy.
        by rewrite lt_irrefl in Hyy.
      * eapply Forall_impl; [exact Hy|]. intros z Hz. simpl in Hz.
        destruct (lt x z) eqn:Hxz; [|done].
        by rewrite (lt_trans _ _ _ Hyx Hxz) in Hz.
    + constructor; [done|].
      rewrite insert_desc_perm. by constructor.
Qed.

Lemma sorted_reverse_descending (l : list A) : descending lt (sorted_reverse lt l).
Proof.
  induction l as [|x l IH] using rev_ind; [constructor|].
  rewrite sorted_reverse_snoc. by apply insert_desc_descending.
Qed.

Lemma lt_asym (a b : A) : lt a b = true → lt b a = false.
Proof.
  intros Hab. destruct (lt b a) eqn:Hba; [|done].
  pose proof (lt_trans _ _ _ Hab Hba) as Haa. by rewrite lt_irrefl in Haa.
Qed.

Lemma strictly_descending_descending (l : list A) :
  strictly_descending lt l → descending lt l.
Proof.
  induction 1 as [|x l Hl IH Hx]; constructor; [done|].
  eapply Forall_impl; [exact Hx|]. intros y. apply lt_asym.
Qed.

Lemma strictly_descending_inj (l : list A) (x y : A) :
  strictly_descending lt l → x ∈ l → y ∈ l →
  lt x y = false → lt y x = false → x = y.
Proof.
  induction 1 as [|z l Hl IH Hz]; intros Hx Hy Hxy Hyx.
  - by apply elem_of_nil in Hx.
  - rewrite Forall_forall in Hz.
    apply elem_of_cons in Hx as [->|Hx], Hy as [->|Hy]; [done| | |by apply IH].
    + apply Hz in Hy. congruence.
    + apply Hz in Hx. congruence.
Qed.

Lemma insert_desc_strictly_descending (x : A) (l : list A) :
  strictly_descending lt l →
  Forall (fun y => lt y x = true ∨ lt x y = true) l →
  strictly_descending lt (insert_desc lt x l).
Proof.
  induction 1 as [|y l Hl IH Hy]; intros Hcmp; simpl.
  - repeat constructor.
  - apply Forall_cons in Hcmp as [Hyx Hcmp].
    destruct (lt y x) eqn:E.
    + constructor; [by constructor|].
      constructor; [done|].
      eapply Forall_impl; [exact Hy|]. intros z Hz. exact (lt_trans _ _ _ Hz E).
    + destruct Hyx as [?|Hxy]; [congruence|].
      constructor; [by apply IH|].
      rewrite insert_desc_perm. by constructor.
Qed.

Lemma min_from_below (d : A) (h : list A) :
  min_from lt d h ∈ d :: h ∧
  (∀ y, lt y d = false → lt y (min_from lt d h) = false) ∧
  Forall (fun y => lt y (min_from lt d h) = false) h.
Proof.
  revert d. induction h as [|x h IH]; intros d; simpl.
  - split; [left|]. split; [done|constructor].
  - destruct (lt x d) eqn:E.
    + destruct (IH x) as (Hin & Hle & Hall). split; [by right|]. split.
      * intros y Hy. apply Hle. destruct (lt y x) eqn:E'; [|done].
        pose proof (lt_trans _ _ _ E' E). congruence.
      * constructor; [|done]. apply Hle, lt_irrefl.
    + destruct (IH d) as (Hin & Hle & Hall). split.
      * apply elem_of_cons in Hin as [->|Hin]; [left|right; by right].
      * split; [done|]. constructor; [by apply Hle|done].
Qed.

Lemma min_from_spec (d : A) (h : list A) :
  min_from lt d h ∈ d :: h ∧
  Forall (fun y => lt y (min_from lt d h) = false) (d :: h).
Proof.
  destruct (min_from_below d h) as (Hin & Hle & Hall).
  split; [done|]. constructor; [apply Hle, lt_irrefl|done].
Qed.

(** The least element of a permutation of a strictly descending lt list is
    the last element of that list. *)
Lemma min_from_last (d z : A) (h D : list A) :
  d :: h ≡ₚ D ++ [z] → strictly_descending lt (D ++ [z]) →
  min_from lt d h = z.
Proof.
  intros Hperm Hs. destruct (min_from_spec d h) as [Hin Hall].
  rewrite Forall_forall in Hall. rewrite Hperm in Hin.
  assert (z ∈ D ++ [z]) as Hz by (apply elem_of_app; right; left).
  apply (strictly_descending_inj (D ++ [z])); [done..| |].
  - destruct (lt (min_from lt d h) z) eqn:E; [|done].
    apply elem_of_app in Hin as [Hm|Hm].
    + pose proof (StronglySorted_app_1_elem_of _ _ _ _ _ Hs Hm
                    (list_elem_of_here z [])) as Hc; simpl in Hc.
      apply lt_asym in Hc. congruence.
    + apply list_elem_of_singleton in Hm. rewrite Hm in E.
      by rewrite lt_irrefl in E.
  - apply Hall. by rewrite Hperm.
Qed.

End SortingFacts.

Lemma count_lt_irrefl a : count_lt a a = false.
Proof. unfold count_lt. lia. Qed.

Lemma count_lt_trans a b c :
  count_lt a b = true → count_lt b c = true → count_lt a c = true.
Proof. unfold count_lt. lia. Qed.

Lemma count_lt_weak a b c :
  count_lt a b = true → count_lt a c = true ∨ count_lt c b = true.
Proof. unfold count_lt. lia. Qed.

Module HeapFacts.
Import heapq.

Lemma tuple_lt_spec a b :
  tuple_lt a b = true ↔
  dkey a < dkey b ∨ (dkey a = dkey b ∧ dorder a < dorder b).
Proof. unfold tuple_lt. lia. Qed.

Lemma tuple_lt_irrefl a : tuple_lt a a = false.
Proof. apply not_true_iff_false. rewrite tuple_lt_spec. lia. Qed.

Lemma tuple_lt_trans a b c :
  tuple_lt a b = true → tuple_lt b c = true → tuple_lt a c = true.
Proof. rewrite !tuple_lt_spec. lia. Qed.

Lemma map_insert_decorated (e : entry) (o : Z) (D : list decorated) :
  well_decorated o D →
  map delem (insert_desc tuple_lt (e.2, o, e) D) =
  insert_desc count_lt e (map delem D).
Proof.
  induction 1 as [|d D [Hk Ho] HD IH]; simpl; [done|].
  replace (tuple_lt d (e.2, o, e)) with (count_lt (delem d) e).
  - destruct (count_lt (delem d) e); simpl; [done|]. by rewrite IH.
  - unfold count_lt. apply eq_true_iff_eq. rewrite tuple_lt_spec.
    unfold dkey, dorder in *. simpl. lia.
Qed.

Lemma insert_decorated (e : entry) (o : Z) (D : list decorated) :
  strict D → well_decorated o D →
  strict (insert_desc tuple_lt (e.2, o, e) D) ∧
  well_decorated (o - 1) (insert_desc tuple_lt (e.2, o, e) D).
Proof.
  intros Hs Hw. split.
  - apply insert_desc_strictly_descending;
      [apply tuple_lt_trans|done|].
    eapply Forall_impl; [exact Hw|]. intros d [Hk Ho]; simpl.
    rewrite !tuple_lt_spec. unfold dkey, dorder in *. simpl. lia.
  - unfold well_decorated. rewrite insert_desc_perm. constructor.
    + unfold dkey, dorder, delem. simpl. lia.
    + eapply Forall_impl; [exact Hw|]. intros d [Hk Ho]; simpl. lia.
Qed.

Lemma remove1_perm (m : decorated) (h : list decorated) :
  m ∈ h → h ≡ₚ m :: remove1 m h.
Proof.
  induction h as [|d h IH]; intros Hin; [by apply elem_of_nil in Hin|].
  simpl. destruct (decide (d = m)) as [->|Hne]; [done|].
  apply elem_of_cons in Hin as [?|Hin]; [congruence|].
  rewrite (IH Hin) at 1. apply Permutation_swap.
Qed.

Lemma heap0_last (h D : list decorated) (z : decorated) :
  h ≡ₚ D ++ [z] → strict (D ++ [z]) → heap0 h = Some z.
Proof.
  intros Hperm Hs. destruct h as [|d h].
  - apply Permutation_nil in Hperm. by destruct D.
  - simpl. f_equal.
    by apply (min_from_last tuple_lt tuple_lt_irrefl tuple_lt_trans _ _ _ D).
Qed.

Lemma strict_last_least (D : list decorated) (z d : decorated) :
  strict (D ++ [z]) → d ∈ D ++ [z] → dkey z ≤ dkey d.
Proof.
  intros Hs Hd. apply elem_of_app in Hd as [Hd|Hd].
  - pose proof (StronglySorted_app_1_elem_of _ _ _ _ _ Hs Hd
                  (list_elem_of_here z [])) as Hlt; simpl in Hlt.
    apply tuple_lt_spec in Hlt. lia.
  - apply list_elem_of_singleton in Hd. by subst.
Qed.

Lemma scan_step_tracks (n : nat) (p : list entry) (st : scan) (e : entry) :
  (n ≤ length p)%nat → tracks n p st →
  tracks n (p ++ [e]) (scan_step snd st e).
Proof.
  intros Hn (D & z & Hperm & Hs & Hmap & Hw & Htop).
  assert (length (D ++ [z]) = n) as Hlen.
  { rewrite <- (length_map delem), Hmap, length_take, sorted_reverse_length. lia. }
  rewrite length_app in Hlen; simpl in Hlen.
  unfold tracks, scan_step. rewrite sorted_reverse_snoc.
  destruct (top st <? e.2) eqn:Hcmp.
  - (* the least item is replaced *)
    unfold heapreplace. rewrite (heap0_last _ _ _ Hperm Hs).
    apply StronglySorted_app_1_l in Hs as HsD.
    apply Forall_app in Hw as HwD. destruct HwD as [HwD Hwz].
    destruct (insert_decorated e (order st) D HsD HwD) as [Hs' Hw'].
    pose proof (map_insert_decorated e (order st) D HwD) as Hmap'.
    assert ((e.2, order st, e) :: remove1 z (result st)
              ≡ₚ insert_desc tuple_lt (e.2, order st, e) D) as Hperm'.
    { rewrite insert_desc_perm. constructor.
      apply (Permutation_cons_inv (a := z)).
      rewrite <- remove1_perm by (rewrite Hperm; apply elem_of_app; right; left).
      rewrite Hperm. by rewrite Permutation_app_comm. }
    destruct (insert_desc tuple_lt (e.2, order st, e) D) as [|d0 D0] eqn:HD'
      using rev_ind.
    { apply (f_equal length) in HD'. rewrite insert_desc_length in HD'. done. }
    clear IHD0. exists D0, d0. cbn [result top order].
    rewrite (heap0_last _ _ _ Hperm' Hs'). cbn [from_option].
    split_and!; [done|done| |done|done].
    rewrite Hmap'.
    rewrite map_app in Hmap; simpl in Hmap.
    assert (sorted_reverse count_lt p !! length D = Some (delem z)) as Hz.
    { rewrite <- (lookup_take_lt _ n) by lia. rewrite <- Hmap.
      rewrite lookup_app_r; rewrite length_map; [|lia].
      by rewrite Nat.sub_diag. }
    replace n with (S (length D)) by lia.
    rewrite (take_insert_desc_in _ _ (delem z) _ _ Hz).
    + f_equal. apply (f_equal (take (length D))) in Hmap.
      rewrite take_app_length' in Hmap by (by rewrite length_map).
      rewrite Hmap, take_take. f_equal. lia.
    + apply Forall_cons in Hwz as [[Hk _] _].
      unfold count_lt. lia.
  - (* nothing changes *)
    exists D, z. split_and!; [done|done| |done|done].
    rewrite Hmap. symmetry. apply take_insert_desc_out.
    { rewrite sorted_reverse_length. lia. }
    rewrite <- Hmap, Forall_map.
    apply Forall_forall. intros d Hd. simpl.
    pose proof (strict_last_least _ _ _ Hs Hd) as Hle.
    unfold well_decorated in Hw. rewrite Forall_forall in Hw.
    destruct (Hw _ Hd) as [Hk _].
    unfold count_lt. lia.
Qed.

Lemma scan_tracks (n : nat) (it p : list entry) (st : scan) :
  (n ≤ length p)%nat → tracks n p st →
  tracks n (p ++ it) (fold_left (scan_step snd) it st).
Proof.
  revert p st. induction it as [|e it IH]; intros p st Hn Ht; simpl.
  - by rewrite app_nil_r.
  - rewrite (assoc_L _ p [e] it : p ++ e :: it = (p ++ [e]) ++ it).
    apply IH; [rewrite length_app; lia|]. by apply scan_step_tracks.
Qed.

Lemma decorate_sorted (p : list entry) (a : nat) (h0 D : list decorated) :
  h0 ≡ₚ D → strict D → well_decorated (- Z.of_nat a) D →
  ∃ D',
    h0 ++ zip_with (fun i elem => (elem.2, i, elem))
            (map (fun i => - Z.of_nat i) (seq a (length p))) p ≡ₚ D' ∧
    strict D' ∧
    map delem D' =
      fold_left (fun acc x => insert_desc count_lt x acc) p (map delem D) ∧
    well_decorated (- Z.of_nat (a + length p)) D'.
Proof.
  revert a h0 D. induction p as [|e p IH]; intros a h0 D Hperm Hs Hw; simpl.
  - exists D. rewrite app_nil_r, Nat.add_0_r. done.
  - destruct (insert_decorated e (- Z.of_nat a) D Hs Hw) as [Hs' Hw'].
    replace (- Z.of_nat a - 1) with (- Z.of_nat (S a)) in Hw' by lia.
    assert (h0 ++ [(e.2, - Z.of_nat a, e)]
              ≡ₚ insert_desc tuple_lt (e.2, - Z.of_nat a, e) D) as Hperm'.
    { rewrite insert_desc_perm, Hperm. by rewrite Permutation_app_comm. }
    destruct (IH (S a) _ _ Hperm' Hs' Hw')
      as (D' & HpermD' & HsD' & HmapD' & HwD').
    exists D'. rewrite <- (assoc_L (++)) in HpermD'. simpl in HpermD'.
    rewrite map_insert_decorated in HmapD' by done.
    replace (a + S (length p))%nat with (S a + length p)%nat by lia.
    done.
Qed.

Lemma range_down_neg (n : Z) :
  range_down (- n) = map (fun i => - Z.of_nat i) (seq 0 (Z.to_nat n)).
Proof. unfold range_down. by rewrite Z.opp_involutive. Qed.

End HeapFacts.

(** [most_common] returns the first [n] entries of the stable descending
    sort of the table, on each of the three paths of [nlargest]. *)
Lemma most_common_sorted (c : list entry) (n : Z) :
  most_common c n = take (Z.to_nat n) (sorted_reverse count_lt c).
Proof.
  unfold most_common, heapq.nlargest. fold count_lt.
  destruct (n =? 1) eqn:H1.
  { apply Z.eqb_eq in H1 as ->. rewrite py_max_head.
    by destruct (sorted_reverse count_lt c). }
  destruct (Z.of_nat (length c) <=? n) eqn:Hsize.
  { unfold slice_to. apply Z.leb_le in Hsize.
    destruct (Z.ltb_spec n 0) as [Hneg|_]; [lia|done]. }
  rewrite HeapFacts.range_down_neg.
  destruct (Z.to_nat n) as [|m] eqn:Hn; [done|].
  assert (S m ≤ length c)%nat as Hm by lia.
  set (ranks := map (fun i => - Z.of_nat i) (seq 0 (S m))).
  assert (length ranks = S m) as Hranks
    by (unfold ranks; by rewrite length_map, length_seq).
  rewrite <- (zip_with_take_r _ ranks c), Hranks.
  rewrite length_zip_with, Hranks, length_take.
  replace (S m `min` (S m `min` length c))%nat with (S m) by lia.
  unfold heapq.heapify.
  destruct (HeapFacts.decorate_sorted (take (S m) c) 0 [] [])
    as (D' & Hperm & Hs & Hmap & Hw); [done|constructor|constructor|].
  rewrite length_take in Hperm, Hw.
  replace (S m `min` length c)%nat with (S m) in Hperm, Hw by lia.
  rewrite app_nil_l in Hperm. fold ranks in Hperm.
  change (fold_left _ ?l _) with (sorted_reverse count_lt l) in Hmap.
  destruct D' as [|z D _] using rev_ind.
  { apply Permutation_nil_r in Hperm. simpl in Hperm. by destruct c. }
  rewrite (HeapFacts.heap0_last _ _ _ Hperm Hs).
  assert (tracks (S m) (take (S m) c)
            (heapq.Scan
               (zip_with (λ (i : Z) (elem : entry), (elem.2, i, elem))
                  ranks (take (S m) c))
               (heapq.dkey z) (- n))) as Ht.
  { exists D, z. cbn [heapq.result heapq.top heapq.order].
    replace (- n) with (- Z.of_nat (0 + S m)) by lia.
    split_and!; [done|done| |done|done].
    rewrite Hmap. symmetry. apply take_ge.
    rewrite sorted_reverse_length, length_take. lia. }
  apply (HeapFacts.scan_tracks _ (drop (S m) c)) in Ht;
    [|rewrite length_take; lia].
  rewrite take_drop in Ht.
  destruct Ht as (D1 & z1 & Hperm1 & Hs1 & Hmap1 & _ & _).
  rewrite <- Hmap1. f_equal.
  apply (StronglySorted_unique_strong (fun a b => heapq.tuple_lt a b = false)).
  - intros x1 x2 Hx1 Hx2 H12 H21.
    rewrite sorted_reverse_perm, Hperm1 in Hx1.
    by apply (strictly_descending_inj heapq.tuple_lt (D1 ++ [z1])).
  - apply sorted_reverse_descending;
      [apply HeapFacts.tuple_lt_irrefl|apply HeapFacts.tuple_lt_trans].
  - apply strictly_descending_descending;
      [apply HeapFacts.tuple_lt_irrefl|apply HeapFacts.tuple_lt_trans|done].
  - by rewrite sorted_reverse_perm.
Qed.

Section Stability.
Context {A : Type}.
Variable lt : A → A → bool.
Hypothesis lt_irrefl : ∀ a, lt a a = false.
Hypothesis lt_trans : ∀ a b c, lt a b = true → lt b c = true → lt a c = true.
Hypothesis lt_weak : ∀ a b c, lt a b = true → lt a c = true ∨ lt c b = true.

Lemma insert_desc_sorted_rel (R : A → A → Prop) (x : A) (l : list A) :
  (∀ a b, R a b → lt a b = false) →
  StronglySorted R l →
  (∀ y, y ∈ l → lt y x = false → R y x) →
  (∀ y, y ∈ l → lt y x = true → R x y) →
  StronglySorted R (insert_desc lt x l).
Proof.
  intros HR Hl. induction Hl as [|y l Hl IH Hy]; intros Hle Hgt; simpl.
  - repeat constructor.
  - rewrite Forall_forall in Hy. destruct (lt y x) eqn:E.
    + constructor; [by constructor; [|apply Forall_forall]|].
      apply Forall_forall. intros z Hz. apply Hgt; [done|].
      apply elem_of_cons in Hz as [->|Hz]; [done|].
      destruct (lt_weak _ _ z E) as [Hc|?]; [|done].
      apply Hy, HR in Hz. congruence.
    + constructor.
      * apply IH; intros z Hz; [apply Hle|apply Hgt]; by right.
      * rewrite insert_desc_perm. constructor; [apply Hle; [left|done]|].
        by apply Forall_forall.
Qed.

Lemma StronglySorted_impl (R1 R2 : A → A → Prop) (l : list A) :
  (∀ a b, R1 a b → R2 a b) → StronglySorted R1 l → StronglySorted R2 l.
Proof.
  intros HR. induction 1 as [|x l Hl IH Hx]; constructor; [done|].
  eapply Forall_impl; [exact Hx|]. intros y. apply HR.
Qed.

(** The sort is descending, and stable: of two elements with equal keys
    the one that comes first in the result came first in the input. *)
Lemma sorted_reverse_stable (l : list A) :
  StronglySorted
    (fun x y => lt x y = false ∧ (lt y x = false → precedes l x y))
    (sorted_reverse lt l).
Proof.
  induction l as [|z l IH] using rev_ind; [constructor|].
  rewrite sorted_reverse_snoc. apply insert_desc_sorted_rel.
  - by intros a b [? _].
  - eapply StronglySorted_impl; [|exact IH].
    intros a b [Hab Hp]. split; [done|]. intros Hba.
    destruct (Hp Hba) as (i & j & Hij & Hi & Hj).
    exists i, j. split; [done|]. split; by apply lookup_app_l_Some.
  - intros y Hy Hyz. split; [done|]. intros _.
    rewrite sorted_reverse_perm in Hy.
    apply list_elem_of_lookup in Hy as [i Hi].
    exists i, (length l). split; [by eapply lookup_lt_Some|].
    split; [by apply lookup_app_l_Some|].
    by rewrite lookup_app_r, Nat.sub_diag.
  - intros y Hy Hyz. split; [by apply (lt_asym lt)|]. congruence.
Qed.

End Stability.

Lemma StronglySorted_lookup_lt {A} (R : A → A → Prop) (l : list A) i j x y :
  StronglySorted R l → (i < j)%nat → l !! i = Some x → l !! j = Some y →
  R x y.
Proof.
  intros Hl. revert i j. induction Hl as [|z l Hl IH Hz]; intros i j Hij Hi Hj.
  - done.
  - destruct j as [|j]; [lia|]. simpl in Hj. destruct i as [|i]; simpl in Hi.
    + injection Hi as ->. rewrite Forall_forall in Hz. apply Hz.
      by eapply list_elem_of_lookup_2.
    + apply (IH i j); [lia|done..].
Qed.

Module CounterFacts.
Import Counter.

Lemma Counter_snoc (ws : list str) (w : str) :
  Counter (ws ++ [w]) = incr w (Counter ws).
Proof. unfold Counter. by rewrite fold_left_app. Qed.

Lemma keys_incr_old (w : str) (d : list entry) :
  w ∈ d.*1 → (incr w d).*1 = d.*1.
Proof.
  induction d as [|[k v] d IH]; intros Hin; [by apply elem_of_nil in Hin|].
  cbn in *. destruct (decide (k = w)) as [->|Hne]; [done|]. cbn. f_equal.
  apply IH. apply elem_of_cons in Hin as [?|?]; [congruence|done].
Qed.

Lemma keys_incr_new (w : str) (d : list entry) :
  w ∉ d.*1 → incr w d = d ++ [(w, 1)].
Proof.
  induction d as [|[k v] d IH]; intros Hin; [done|].
  cbn in *. apply not_elem_of_cons in Hin as [Hne Hin].
  rewrite decide_False by done. by rewrite IH.
Qed.

Lemma get_incr (w t : str) (d : list entry) :
  get (incr w d) t = get d t + (if decide (w = t) then 1 else 0).
Proof.
  induction d as [|[k v] d IH]; cbn.
  - repeat case_decide; congruence || lia.
  - destruct (decide (k = w)) as [->|Hne]; cbn.
    + repeat case_decide; congruence || lia.
    + rewrite IH. repeat case_decide; congruence || lia.
Qed.

(** The table holds the true number of occurrences of every token. *)
Lemma get_Counter (ws : list str) (t : str) :
  get (Counter ws) t = occurrences t ws.
Proof.
  induction ws as [|w ws IH] using rev_ind; [done|].
  rewrite Counter_snoc, get_incr, IH. clear IH.
  induction ws as [|v ws IH]; cbn; [lia|]. rewrite <- IH. lia.
Qed.

Lemma keys_Counter (ws : list str) (t : str) :
  t ∈ (Counter ws).*1 ↔ t ∈ ws.
Proof.
  induction ws as [|w ws IH] using rev_ind; [done|].
  rewrite Counter_snoc, elem_of_app, list_elem_of_singleton, <- IH.
  destruct (decide (w ∈ (Counter ws).*1)) as [Hin|Hnin].
  - rewrite keys_incr_old by done. split; [by left|]. by intros [?| ->].
  - rewrite keys_incr_new by done.
    rewrite fmap_app, elem_of_app. cbn. by rewrite list_elem_of_singleton.
Qed.

Lemma keys_NoDup (ws : list str) : NoDup (Counter ws).*1.
Proof.
  induction ws as [|w ws IH] using rev_ind; [constructor|].
  rewrite Counter_snoc.
  destruct (decide (w ∈ (Counter ws).*1)) as [Hin|Hnin].
  - by rewrite keys_incr_old.
  - rewrite keys_incr_new, fmap_app by done.
    apply NoDup_app. split; [done|]. split; [|apply NoDup_singleton].
    intros x Hx ->%list_elem_of_singleton. done.
Qed.

Lemma get_elem_of (d : list entry) (k : str) (v : Z) :
  NoDup d.*1 → (k, v) ∈ d → get d k = v.
Proof.
  induction d as [|[k' v'] d IH]; intros Hnd Hin;
    [by apply elem_of_nil in Hin|].
  cbn in *. apply NoDup_cons in Hnd as [Hk' Hnd].
  apply elem_of_cons in Hin as [[= -> ->]|Hin].
  - by rewrite decide_True.
  - rewrite decide_False; [by apply IH|]. intros ->. apply Hk'.
    by apply (list_elem_of_fmap_2 fst) in Hin.
Qed.

(** Every entry pairs a token of the list with its number of occurrences. *)
Lemma Counter_elem_of (ws : list str) (k : str) (v : Z) :
  (k, v) ∈ Counter ws → k ∈ ws ∧ v = occurrences k ws.
Proof.
  intros Hin. split.
  - apply keys_Counter. by apply (list_elem_of_fmap_2 fst) in Hin.
  - rewrite <- get_Counter. symmetry. apply get_elem_of; [apply keys_NoDup|done].
Qed.

Lemma size_Counter (ws : list str) :
  length (Counter ws) = size (list_to_set ws : gset (list Z)).
Proof.
  rewrite <- (length_fmap fst).
  rewrite <- (size_list_to_set (C := gset (list Z))) by apply keys_NoDup.
  f_equal. apply set_eq. intros t.
  by rewrite !elem_of_list_to_set, keys_Counter.
Qed.

Lemma index_lt (t : str) (ws : list str) :
  t ∈ ws → (index t ws < length ws)%nat.
Proof.
  induction ws as [|w ws IH]; intros Hin; [by apply elem_of_nil in Hin|].
  cbn. case_decide; [lia|].
  apply elem_of_cons in Hin as [?|Hin]; [congruence|]. apply IH in Hin. lia.
Qed.

Lemma index_app_l (t : str) (ws l : list str) :
  t ∈ ws → index t (ws ++ l) = index t ws.
Proof.
  induction ws as [|w ws IH]; intros Hin; [by apply elem_of_nil in Hin|].
  cbn. case_decide; [done|]. f_equal. apply IH.
  apply elem_of_cons in Hin as [?|Hin]; [congruence|done].
Qed.

Lemma index_app_r (t : str) (ws : list str) :
  t ∉ ws → index t (ws ++ [t]) = length ws.
Proof.
  induction ws as [|w ws IH]; intros Hin; cbn.
  - by rewrite decide_True.
  - apply not_elem_of_cons in Hin as [Hne Hin].
    rewrite decide_False by done. f_equal. by apply IH.
Qed.

(** The keys of the table are in first-encountered order. *)
Lemma keys_first_seen (ws : list str) (a b : str) :
  precedes (Counter ws).*1 a b → (index a ws < index b ws)%nat.
Proof.
  induction ws as [|w ws IH] using rev_ind.
  { intros (i & j & _ & Hi & _). done. }
  rewrite Counter_snoc. intros (i & j & Hij & Hi & Hj).
  destruct (decide (w ∈ (Counter ws).*1)) as [Hin|Hnin].
  - rewrite keys_incr_old in Hi, Hj by done.
    rewrite !index_app_l;
      [apply IH; by exists i, j
      |apply keys_Counter; by eapply list_elem_of_lookup_2..].
  - rewrite keys_incr_new, fmap_app in Hi, Hj by done.
    assert (i < length (Counter ws).*1)%nat as Hilt.
    { apply lookup_lt_Some in Hi, Hj. rewrite length_app in Hi, Hj.
      simpl in *. lia. }
    rewrite lookup_app_l in Hi by done.
    assert (a ∈ ws) as Ha
      by (apply keys_Counter; by eapply list_elem_of_lookup_2).
    rewrite (index_app_l a) by done.
    destruct (decide (j < length (Counter ws).*1)%nat) as [Hjlt|Hjge].
    + rewrite lookup_app_l in Hj by done.
      rewrite index_app_l
        by (apply keys_Counter; by eapply list_elem_of_lookup_2).
      apply IH. by exists i, j.
    + rewrite lookup_app_r in Hj by lia.
      apply list_lookup_singleton_Some in Hj as [_ <-].
      rewrite index_app_r by (by rewrite <- keys_Counter).
      by apply index_lt.
Qed.
End CounterFacts.

(** * Ranking *)

Lemma top_words_sorted (all_words : list str) (top : Z) :
  top_words all_words top =
  take (Z.to_nat top) (sorted_reverse count_lt (Counter.Counter all_words)).
Proof. apply most_common_sorted. Qed.

(** C1: the ranked output [Counter(all_words).most_common(top)] is in
    descending order of count, and of two tokens with equal counts the
    one listed first is the one first encountered in [all_words]; for
    the tokens a, b, a, b and top 2 the output is a then b, each with
    count 2. *)
Theorem top_words_ranked :
  (∀ (all_words : list str) (top : Z) (i j : nat) (a b : str) (ca cb : Z),
     top_words all_words top !! i = Some (a, ca) →
     top_words all_words top !! j = Some (b, cb) →
     (i < j)%nat →
     cb ≤ ca ∧ (ca = cb → (index a all_words < index b all_words)%nat)) ∧
  top_words [py "a"; py "b"; py "a"; py "b"] 2 = [(py "a", 2); (py "b", 2)].
Proof.
  split; [|reflexivity].
  intros all_words top i j a b ca cb Hi Hj Hij.
  rewrite top_words_sorted in Hi, Hj.
  apply lookup_take_Some in Hi as [Hi _], Hj as [Hj _].
  pose proof (sorted_reverse_stable count_lt count_lt_irrefl count_lt_trans
                count_lt_weak (Counter.Counter all_words)) as Hs.
  destruct (StronglySorted_lookup_lt _ _ _ _ _ _ Hs Hij Hi Hj) as [Hle Hst].
  unfold count_lt in Hle, Hst. simpl in Hle, Hst.
  split; [lia|]. intros ->.
  apply CounterFacts.keys_first_seen.
  destruct Hst as (i' & j' & Hij' & Hi' & Hj'); [lia|].
  exists i', j'. rewrite !list_lookup_fmap, Hi', Hj'. done.
Qed.

Lemma top_words_ranked_witness :
  let all_words := [py "b"; py "a"; py "b"; py "a"; py "c"; py "c"; py "d"] in
  top_words all_words 3 !! 0%nat = Some (py "b", 2) ∧
  top_words all_words 3 !! 1%nat = Some (py "a", 2) ∧
  (0 < 1)%nat ∧
  2 ≤ 2 ∧ (2 = 2 → (index (py "b") all_words < index (py "a") all_words)%nat).
Proof.
  intros all_words.
  split; [reflexivity|]. split; [reflexivity|]. split; [lia|].
  apply (proj1 top_words_ranked all_words 3 0%nat 1%nat);
    [reflexivity|reflexivity|lia].
Defined.

(** C3: for a non-empty token list and [n] at least the number of
    distinct tokens, the ranked output lists every distinct token exactly
    once, each with its true number of occurrences. *)
Theorem top_words_complete (all_words : list str) (n : Z) :
  all_words ≠ [] → Z.of_nat (distinct all_words) ≤ n →
  NoDup (top_words all_words n).*1 ∧
  (∀ t, t ∈ all_words ↔ t ∈ (top_words all_words n).*1) ∧
  (∀ t c, (t, c) ∈ top_words all_words n → c = occurrences t all_words) ∧
  length (top_words all_words n) = distinct all_words.
Proof.
  intros _ Hn. unfold distinct in *.
  rewrite <- CounterFacts.size_Counter in *.
  assert (top_words all_words n ≡ₚ Counter.Counter all_words) as Hperm.
  { rewrite top_words_sorted, take_ge; [apply sorted_reverse_perm|].
    rewrite sorted_reverse_length. lia. }
  split_and!.
  - rewrite Hperm. apply CounterFacts.keys_NoDup.
  - intros t. by rewrite Hperm, CounterFacts.keys_Counter.
  - intros t c Hin. rewrite Hperm in Hin.
    by apply CounterFacts.Counter_elem_of in Hin as [_ ->].
  - by rewrite Hperm.
Qed.

Lemma top_words_complete_witness :
  let all_words := [py "tea"; py "cup"; py "tea"] in
  all_words ≠ [] ∧ Z.of_nat (distinct all_words) ≤ 5 ∧
  top_words all_words 5 = [(py "tea", 2); (py "cup", 1)] ∧
  NoDup (top_words all_words 5).*1.
Proof.
  intros all_words.
  assert (all_words ≠ []) as Hne by done.
  assert (Z.of_nat (distinct all_words) ≤ 5) as Hn by (vm_compute; discriminate).
  split; [exact Hne|]. split; [exact Hn|]. split; [reflexivity|].
  exact (proj1 (top_words_complete all_words 5 Hne Hn)).
Defined.

(** C4: [most_common(n)] with [n] zero or negative is the empty list,
    for every table, hence for the table of every token list; the model
    is a total function, so nothing is raised. *)
Theorem most_common_nonpositive (c : list entry) (n : Z) :
  n ≤ 0 →
  most_common c n = [] ∧ (∀ all_words, top_words all_words n = []).
Proof.
  intros Hn. split; [|intros all_words; unfold top_words];
    rewrite most_common_sorted; by replace (Z.to_nat n) with 0%nat by lia.
Qed.

Lemma most_common_nonpositive_witness :
  -3 ≤ 0 ∧ most_common [(py "tea", 2); (py "cup", 1)] (-3) = [].
Proof.
  split; [lia|].
  exact (proj1 (most_common_nonpositive [(py "tea", 2); (py "cup", 1)] (-3)
                  ltac:(lia))).
Defined.

(** * Cleaning and filtering *)

Lemma runs_tokens (keep : char → bool) (text cur : str) (w : str) :
  Forall (fun c => keep c = true) cur → w ∈ runs keep cur text →
  w ≠ [] ∧ Forall (fun c => keep c = true) w.
Proof.
  revert cur. induction text as [|c text IH]; intros cur Hcur Hw; simpl in Hw.
  - destruct cur; [by apply elem_of_nil in Hw|].
    by apply list_elem_of_singleton in Hw as ->.
  - destruct (keep c) eqn:Hc.
    + apply (IH (cur ++ [c])); [|done].
      apply Forall_app. split; [done|]. by constructor.
    + destruct cur as [|c' cur']; [by apply (IH [])|].
      apply elem_of_cons in Hw as [->|Hw]; [done|]. by apply (IH []).
Qed.

(** A text without any word character yields no token. *)
Lemma runs_nothing (keep : char → bool) (text : str) :
  Forall (fun c => keep c = false) text → runs keep [] text = [].
Proof. induction 1 as [|c text Hc _ IH]; simpl; [done|]. by rewrite Hc. Qed.

Lemma findall_tokens (unicode_word : char → bool) (text w : str) :
  w ∈ English.findall unicode_word text →
  w ≠ [] ∧ Forall (fun c => English.is_word unicode_word c = true) w.
Proof. apply runs_tokens. constructor. Qed.

(** C9: with the stop words "the" and "on" and no custom filter, the
    text "The Cat sat on THE mat" is lowercased, scanned for maximal runs
    of word characters and filtered to cat, sat, mat, in that order; a
    run of punctuation yields no token. *)
Theorem clean_text_example (unicode_lower : str → str)
    (unicode_word : char → bool) :
  let self := {| English.stop_words := {[py "the"; py "on"]};
                 English.custom_filter := ∅ |} in
  English._clean_text unicode_lower unicode_word self
    (py "The Cat sat on THE mat") = [py "cat"; py "sat"; py "mat"] ∧
  English.lower unicode_lower (py "The Cat sat on THE mat")
    = py "the cat sat on the mat" ∧
  English.findall unicode_word (py "the cat sat on the mat")
    = [py "the"; py "cat"; py "sat"; py "on"; py "the"; py "mat"] ∧
  English._clean_text unicode_lower unicode_word self (py "?!... -- ;") = [].
Proof. repeat split. Qed.

Lemma english_filtered_words_filter (self : English.TextProcessor)
    (tokens : list str) :
  English.filtered_words self tokens =
  filter (fun t => (t ∉ English.stop_words self) ∧
                   (t ∉ English.custom_filter self)) tokens.
Proof.
  induction tokens as [|t tokens IH]; [done|]. simpl.
  rewrite filter_cons, <- IH.
  do 2 case_bool_decide; simpl; case_decide; first [done|exfalso; tauto].
Qed.

Lemma chinese_filtered_words_filter (self : Chinese.ChineseTextProcessor)
    (tokens : list str) :
  Chinese.filtered_words self tokens =
  filter (fun t => (1 < length t)%nat ∧ (t ∉ Chinese.stopwords self) ∧
                   (t ∉ Chinese.custom_filter self)) tokens.
Proof.
  induction tokens as [|t tokens IH]; [done|]. simpl.
  rewrite filter_cons, <- IH.
  do 3 case_bool_decide; simpl; case_decide; first [done|exfalso; tauto].
Qed.

(** On a token list without an empty token the comprehension of
    [_process_content], which tests [len(word) > 1], drops exactly the
    tokens of length 1. *)
Lemma chinese_filtered_words_spec (self : Chinese.ChineseTextProcessor)
    (tokens : list str) :
  Forall (fun t => t ≠ []) tokens →
  Chinese.filtered_words self tokens =
  chinese_filter_spec (Chinese.stopwords self) (Chinese.custom_filter self)
    tokens.
Proof.
  intros Hne. rewrite chinese_filtered_words_filter.
  unfold chinese_filter_spec.
  induction Hne as [|t tokens Ht _ IH]; [done|].
  rewrite !filter_cons, IH.
  assert (length t ≠ 0%nat) as Hlen by (by destruct t).
  case_decide as H1; case_decide as H2; first [done|exfalso].
  - destruct H1 as (? & ? & ?), H2 as [?|[?|?]]; [done|done|lia].
  - apply H1. split_and!; [lia|intros ?; apply H2; auto..].
Qed.

(** The hypothesis is needed: an empty token fails [len(word) > 1],
    although its length is not 1. *)
Remark chinese_filter_empty_token :
  let self := {| Chinese.stopwords := ∅; Chinese.custom_filter := ∅ |} in
  Chinese.filtered_words self [[]] = [] ∧
  chinese_filter_spec (Chinese.stopwords self) (Chinese.custom_filter self)
    [[]] = [[]].
Proof. by split. Qed.

(** C5: the English filter returns exactly the tokens that are in
    neither the stop-word set nor the custom filter set, in order.  On
    the tokens of a segmenter, none of which is empty, the Chinese filter
    returns exactly the tokens that are in neither set and whose length
    is not 1, in order.  Either output is a subsequence of the input,
    and a token that is dropped is not in the output. *)
Theorem stopword_filter_exact (tokens : list str) :
  (∀ self : English.TextProcessor,
     English.filtered_words self tokens =
       stopword_filter_spec (English.stop_words self)
         (English.custom_filter self) tokens ∧
     sublist (English.filtered_words self tokens) tokens ∧
     ∀ t, t ∈ English.filtered_words self tokens ↔
          t ∈ tokens ∧
          t ∉ English.stop_words self ∪ English.custom_filter self) ∧
  (∀ self : Chinese.ChineseTextProcessor,
     Forall (fun t => t ≠ []) tokens →
     Chinese.filtered_words self tokens =
       chinese_filter_spec (Chinese.stopwords self)
         (Chinese.custom_filter self) tokens ∧
     sublist (Chinese.filtered_words self tokens) tokens ∧
     ∀ t, t ∈ Chinese.filtered_words self tokens ↔
          t ∈ tokens ∧
          (t ∉ Chinese.stopwords self ∪ Chinese.custom_filter self) ∧
          length t ≠ 1%nat).
Proof.
  split; intros self.
  - rewrite english_filtered_words_filter. split_and!.
    + unfold stopword_filter_spec. apply list_filter_iff. intros t. tauto.
    + apply sublist_filter.
    + intros t. rewrite list_elem_of_filter, not_elem_of_union. tauto.
  - intros Hne. split_and!.
    + by apply chinese_filtered_words_spec.
    + rewrite chinese_filtered_words_filter. apply sublist_filter.
    + intros t. rewrite chinese_filtered_words_spec by done.
      unfold chinese_filter_spec.
      rewrite list_elem_of_filter, not_elem_of_union. tauto.
Qed.

Lemma stopword_filter_exact_witness :
  let self := {| Chinese.stopwords := {[ [0x7684] ]};
                 Chinese.custom_filter := {[ [0x8fd9; 0x4e2a] ]} |} in
  let tokens : list str :=
    [[0x7684]; [0x4f60; 0x597d]; [0x662f]; [0x4f60; 0x597d];
     [0x8fd9; 0x4e2a]] in
  Forall (fun t => t ≠ []) tokens ∧
  Chinese.filtered_words self tokens =
    chinese_filter_spec (Chinese.stopwords self) (Chinese.custom_filter self)
      tokens ∧
  Chinese.filtered_words self tokens = [[0x4f60; 0x597d]; [0x4f60; 0x597d]].
Proof.
  intros self tokens.
  assert (Forall (fun t => t ≠ []) tokens) as Hne
    by (repeat constructor; discriminate).
  split; [exact Hne|]. split.
  - exact (proj1 (proj2 (stopword_filter_exact tokens) self Hne)).
  - reflexivity.
Defined.

(** * Chinese normalization *)

Lemma re_sub_range_filter (text : str) :
  Chinese.re_sub_non_chinese text = range_filter_spec text.
Proof.
  induction text as [|c text IH]; [done|]. simpl. rewrite IH.
  unfold Chinese.non_chinese. case_decide as Hc; unfold chinese in Hc.
  - by replace ((0x4e00 <=? c) && (c <=? 0x9fff)) with true by lia.
  - by replace ((0x4e00 <=? c) && (c <=? 0x9fff)) with false by lia.
Qed.

Lemma range_filter_chars (text : str) :
  Forall (fun c => chinese c ∨ c = SPACE) (range_filter_spec text).
Proof.
  unfold range_filter_spec. apply Forall_map, Forall_forall. intros c _.
  simpl. case_decide; auto.
Qed.

(** C6: the text handed to the tokenizer is the range filter applied to
    the converted text: conversion runs on the whole input, and only then
    is every character outside U+4E00 to U+9FFF replaced by one space.
    The order is observable: a converter that maps a character outside
    the range into it gives another result when it runs last. *)
Theorem normalized_convert_first (convert : str → str)
    (lcut : str → list str) (self : Chinese.ChineseTextProcessor)
    (text : str) :
  Chinese.normalized convert text = range_filter_spec (convert text) ∧
  Chinese._process_content convert lcut self text =
    Chinese.filtered_words self (lcut (range_filter_spec (convert text))) ∧
  length (Chinese.normalized convert text) = length (convert text) ∧
  Chinese.normalized stub_convert [0xf900] = [0x5c82] ∧
  stub_convert (Chinese.re_sub_non_chinese [0xf900]) = [SPACE].
Proof.
  unfold Chinese.normalized, Chinese._process_content.
  rewrite !re_sub_range_filter. split_and!; try done.
  unfold range_filter_spec. by rewrite length_map.
Qed.

(** C10: when the tokens the segmenter returns for the normalized text
    are contiguous substrings of it that contain no space, every token
    returned by [_process_content] is non-empty, has at least two
    characters and consists of characters of the range U+4E00 to U+9FFF
    only. *)
Theorem process_content_tokens (convert : str → str)
    (lcut : str → list str) (self : Chinese.ChineseTextProcessor)
    (text : str) :
  segments lcut (Chinese.normalized convert text) →
  ∀ w, w ∈ Chinese._process_content convert lcut self text →
       w ≠ [] ∧ (2 ≤ length w)%nat ∧ Forall chinese w.
Proof.
  intros Hseg w Hw. unfold Chinese._process_content in Hw.
  fold (Chinese.normalized convert text) in Hw.
  rewrite chinese_filtered_words_filter in Hw.
  apply list_elem_of_filter in Hw as [(Hlen & _ & _) Hw].
  destruct (Hseg w Hw) as [(before & after & Hsub) Hspace].
  split_and!; [intros ->; simpl in Hlen; lia|lia|].
  pose proof (range_filter_chars (convert text)) as Hchars.
  rewrite <- re_sub_range_filter in Hchars.
  fold (Chinese.normalized convert text) in Hchars.
  rewrite Hsub, !Forall_app in Hchars. destruct Hchars as (_ & Hchars & _).
  rewrite Forall_forall in Hchars |- *. intros c Hc.
  destruct (Hchars c Hc) as [?| ->]; done.
Qed.

Lemma stub_lcut_segments :
  segments stub_lcut
    (Chinese.normalized stub_convert
       [0x4f60; 0x597d; 33; 0x7684; 65; 0x8fd9; 0x4e2a]).
Proof.
  intros w Hw. vm_compute in Hw.
  repeat (apply elem_of_cons in Hw as [->|Hw]); [| | |by apply elem_of_nil in Hw].
  - split; [by exists [], [32; 30340; 32; 36825; 20010]|].
    intros Hin. by repeat (apply elem_of_cons in Hin as [?|Hin]);
      [..|apply elem_of_nil in Hin].
  - split; [by exists [20320; 22909; 32], [32; 36825; 20010]|].
    intros Hin. by repeat (apply elem_of_cons in Hin as [?|Hin]);
      [..|apply elem_of_nil in Hin].
  - split; [by exists [20320; 22909; 32; 30340; 32], []|].
    intros Hin. by repeat (apply elem_of_cons in Hin as [?|Hin]);
      [..|apply elem_of_nil in Hin].
Qed.

Lemma process_content_tokens_witness :
  let text := [0x4f60; 0x597d; 33; 0x7684; 65; 0x8fd9; 0x4e2a] in
  let self := {| Chinese.stopwords := ∅;
                 Chinese.custom_filter := {[ [0x8fd9; 0x4e2a] ]} |} in
  let w : str := [0x4f60; 0x597d] in
  segments stub_lcut (Chinese.normalized stub_convert text) ∧
  Chinese._process_content stub_convert stub_lcut self text = [w] ∧
  (w ≠ [] ∧ (2 ≤ length w)%nat ∧ Forall chinese w).
Proof.
  intros text self w.
  split; [exact stub_lcut_segments|]. split; [reflexivity|].
  apply (process_content_tokens stub_convert stub_lcut self text
           stub_lcut_segments).
  left.
Defined.

(** * Accumulation over files *)

Lemma occurrences_app (t : str) (l1 l2 : list str) :
  occurrences t (l1 ++ l2) = occurrences t l1 + occurrences t l2.
Proof. induction l1 as [|w l1 IH]; simpl; [done|]. rewrite IH. lia. Qed.

Lemma occurrences_nonneg (t : str) (ws : list str) : 0 ≤ occurrences t ws.
Proof. induction ws; simpl; [done|]. case_decide; lia. Qed.

Lemma occurrences_pos (t : str) (ws : list str) :
  t ∈ ws ↔ 0 < occurrences t ws.
Proof.
  induction ws as [|w ws IH]; simpl.
  - rewrite elem_of_nil. lia.
  - rewrite elem_of_cons, IH. pose proof (occurrences_nonneg t ws).
    case_decide; split; try lia; auto. intros [?|?]; [congruence|lia].
Qed.

Lemma occurrences_extend (t : str) (per_file : list (list str))
    (all_words : list str) :
  occurrences t (fold_left (fun a ws => a ++ ws) per_file all_words) =
  occurrences t all_words + occurrences t (accumulate per_file).
Proof.
  unfold accumulate. revert all_words.
  induction per_file as [|ws per_file IH]; intros all_words; simpl; [lia|].
  rewrite (IH (all_words ++ ws)), (IH ws), occurrences_app. lia.
Qed.

Lemma occurrences_accumulate_perm (t : str)
    (per_file per_file' : list (list str)) :
  per_file ≡ₚ per_file' →
  occurrences t (accumulate per_file) = occurrences t (accumulate per_file').
Proof.
  unfold accumulate. induction 1 as [|ws l l' _ IH|ws ws' l|l l' l'' _ IH _ IH'];
    simpl; [done| | |congruence].
  - rewrite !(occurrences_extend _ _ ws). unfold accumulate. lia.
  - rewrite !(occurrences_extend _ _ (_ ++ _)), !occurrences_app. lia.
Qed.

Lemma Counter_elem_of_iff (ws : list str) (k : str) (v : Z) :
  (k, v) ∈ Counter.Counter ws ↔ k ∈ ws ∧ v = occurrences k ws.
Proof.
  split; [apply CounterFacts.Counter_elem_of|]. intros [Hk ->].
  apply CounterFacts.keys_Counter, list_elem_of_fmap in Hk
    as ([k' v] & Hk & Hin).
  simpl in Hk. subst k'.
  by destruct (CounterFacts.Counter_elem_of _ _ _ Hin) as [_ <-].
Qed.

(** C7: the count of every token in the final table is the same for
    every order of the files; a permutation of the files permutes the
    entries of the table at most. *)
Theorem counts_order_independent (per_file per_file' : list (list str)) :
  per_file ≡ₚ per_file' →
  (∀ t, Counter.get (Counter.Counter (accumulate per_file)) t =
        Counter.get (Counter.Counter (accumulate per_file')) t) ∧
  Counter.Counter (accumulate per_file)
    ≡ₚ Counter.Counter (accumulate per_file').
Proof.
  intros Hperm. split.
  - intros t. rewrite !CounterFacts.get_Counter.
    by apply occurrences_accumulate_perm.
  - apply NoDup_Permutation;
      [eapply NoDup_fmap_1, CounterFacts.keys_NoDup..|].
    intros [k v]. rewrite !Counter_elem_of_iff, !occurrences_pos.
    by rewrite (occurrences_accumulate_perm k _ _ Hperm).
Qed.

Lemma counts_order_independent_witness :
  let english := [py "tea"; py "cup"] in
  let chinese := [py "cup"; py "pot"; py "cup"] in
  [english; chinese] ≡ₚ [chinese; english] ∧
  Counter.Counter (accumulate [english; chinese])
    = [(py "tea", 1); (py "cup", 3); (py "pot", 1)] ∧
  Counter.Counter (accumulate [chinese; english])
    = [(py "cup", 3); (py "pot", 1); (py "tea", 1)] ∧
  Counter.Counter (accumulate [english; chinese])
    ≡ₚ Counter.Counter (accumulate [chinese; english]).
Proof.
  intros english chinese.
  assert ([english; chinese] ≡ₚ [chinese; english]) as Hperm
    by apply Permutation_swap.
  split; [exact Hperm|]. split; [reflexivity|]. split; [reflexivity|].
  exact (proj2 (counts_order_independent _ _ Hperm)).
Defined.

Section MainFacts.
Variable process_file : str → outcome (list str).

Lemma extend_all_Return (files : list str) (per_file : list (list str))
    (all_words : list str) :
  Forall2 (fun file words => process_file file = Return words)
    files per_file →
  extend_all process_file all_words files =
  Return (fold_left (fun a ws => a ++ ws) per_file all_words).
Proof.
  intros Hall. revert all_words.
  induction Hall as [|file words files per_file Hfile _ IH];
    intros all_words; simpl; [done|].
  rewrite Hfile. simpl. apply IH.
Qed.

Lemma extend_all_Raise (before after : list str) (file : str)
    (e : exception) (all_words : list str) :
  Forall (fun f => ∃ words, process_file f = Return words) before →
  process_file file = Raise e →
  extend_all process_file all_words (before ++ file :: after) = Raise e.
Proof.
  intros Hall Hfile. revert all_words.
  induction Hall as [|f before [words Hf] _ IH]; intros all_words; simpl.
  - by rewrite Hfile.
  - rewrite Hf. simpl. apply IH.
Qed.

(** When every extraction succeeds, the table counts the concatenation
    of the token lists in the order of the files. *)
Lemma main_word_counts_Return (files : list str)
    (per_file : list (list str)) :
  Forall2 (fun file words => process_file file = Return words)
    files per_file →
  main_word_counts process_file files =
  Return (Counter.Counter (accumulate per_file)).
Proof.
  intros Hall. unfold main_word_counts.
  by rewrite (extend_all_Return _ _ _ Hall).
Qed.

Lemma main_Raise (before after : list str) (file : str) (e : exception)
    (top : Z) :
  Forall (fun f => ∃ words, process_file f = Return words) before →
  process_file file = Raise e →
  main_word_counts process_file (before ++ file :: after) = Raise e ∧
  main_top_words process_file (before ++ file :: after) top = Raise e.
Proof.
  intros Hall Hfile. unfold main_top_words, main_word_counts.
  by rewrite (extend_all_Raise _ _ _ _ _ Hall Hfile).
Qed.
End MainFacts.

(** With a readable file and one that is not UTF-8 in the same run, the
    run ends with the exception of the second file; its outcome is not
    the table of the readable file alone. *)
Lemma failed_file_not_isolated :
  let self := English.init [py "and"] None in
  let process_file :=
    English.process_file (fun s => s) (fun _ => false) stub_readers self in
  process_file (py "good.txt") = Return [py "tea"; py "tea"] ∧
  process_file (py "bad.txt") = Raise UnicodeDecodeError ∧
  main_word_counts process_file [py "good.txt"] = Return [(py "tea", 2)] ∧
  main_word_counts process_file [py "good.txt"; py "bad.txt"]
    = Raise UnicodeDecodeError ∧
  main_word_counts process_file [py "good.txt"; py "bad.txt"]
    ≠ main_word_counts process_file [py "good.txt"].
Proof. repeat split. vm_compute. discriminate. Qed.

(** C2, amended: in either program, when the extraction of a file fails,
    the exception of the first failing file leaves the accumulation loop:
    [main] ends with that exception, whatever files follow, and neither a
    frequency table nor a ranking is produced. *)
Theorem extraction_failure_aborts (io : readers) (before after : list str)
    (file : str) (e : exception) (top : Z) :
  (∀ unicode_lower unicode_word (self : English.TextProcessor),
     let process_file :=
       English.process_file unicode_lower unicode_word io self in
     Forall (fun f => ∃ words, process_file f = Return words) before →
     process_file file = Raise e →
     main_word_counts process_file (before ++ file :: after) = Raise e ∧
     main_top_words process_file (before ++ file :: after) top = Raise e) ∧
  (∀ convert lcut (self : Chinese.ChineseTextProcessor),
     let process_file := Chinese.process_file convert lcut io self in
     Forall (fun f => ∃ words, process_file f = Return words) before →
     process_file file = Raise e →
     main_word_counts process_file (before ++ file :: after) = Raise e ∧
     main_top_words process_file (before ++ file :: after) top = Raise e).
Proof. split; intros; by apply main_Raise. Qed.

Lemma extraction_failure_aborts_witness :
  let self := English.init [py "and"] None in
  let process_file :=
    English.process_file (fun s => s) (fun _ => false) stub_readers self in
  Forall (fun f => ∃ words, process_file f = Return words) [py "good.txt"] ∧
  process_file (py "bad.txt") = Raise UnicodeDecodeError ∧
  main_word_counts process_file
    ([py "good.txt"] ++ py "bad.txt" :: [py "good.txt"])
    = Raise UnicodeDecodeError.
Proof.
  intros self process_file.
  assert (Forall (fun f => ∃ words, process_file f = Return words)
            [py "good.txt"]) as Hgood.
  { constructor; [|constructor]. by exists [py "tea"; py "tea"]. }
  assert (process_file (py "bad.txt") = Raise UnicodeDecodeError) as Hbad
    by reflexivity.
  split; [exact Hgood|]. split; [exact Hbad|].
  exact (proj1 (proj1 (extraction_failure_aborts stub_readers
                         [py "good.txt"] [py "good.txt"] (py "bad.txt")
                         UnicodeDecodeError 10)
                  (fun s => s) (fun _ => false) self Hgood Hbad)).
Defined.

(** * Dictionary look-up *)


Section DictionaryFacts.
Context {json : Type}.
Variable json_loads : str → outcome json.
Variable requests_get : str → outcome response.

Lemma response_json_Return (r : response) (data : json) :
  response_json json json_loads r = Return data ↔
  json_loads (content r) = Return data.
Proof.
  unfold response_json, try_except.
  destruct (json_loads (content r)) as [d|e]; [done|].
  destruct (is_json_JSONDecodeError e); split; intros; simplify_eq.
Qed.


Lemma fetch_Return (base_url word : str) (data : option json) :
  fetch json json_loads requests_get base_url word = Return data ↔
  ∃ r, requests_get (base_url ++ word) = Return r ∧
       if status_code r =? 200
       then ∃ d, data = Some d ∧ json_loads (content r) = Return d
       else data = None.
Proof.
  unfold fetch, mbind, outcome_bind.
  destruct (requests_get (base_url ++ word)) as [r|e].
  2: { split; [done|]. by intros (? & ? & _). }
  split.
  - intros H. exists r. split; [done|].
    destruct (status_code r =? 200); [|by simplify_eq].
    destruct (response_json json json_loads r) as [d|e] eqn:Hd; [|done].
    exists d. split; [by simplify_eq|]. by apply response_json_Return.
  - intros (r' & [= <-] & H).
    destruct (status_code r =? 200); [|by subst].
    destruct H as (d & -> & Hd).
    by rewrite (proj2 (response_json_Return r d) Hd).
Qed.

Lemma fetch_Return_Some (base_url word : str) (data : json) :
  fetch json json_loads requests_get base_url word = Return (Some data) ↔
  ∃ r, requests_get (base_url ++ word) = Return r ∧ status_code r = 200 ∧
       json_loads (content r) = Return data.
Proof.
  rewrite fetch_Return. split.
  - intros (r & Hget & H). exists r. split; [done|].
    destruct (Z.eqb_spec (status_code r) 200); [|done].
    destruct H as (d & [= <-] & ?). done.
  - intros (r & Hget & Hs & Hd). exists r. split; [done|].
    apply Z.eqb_eq in Hs as ->. by exists data.
Qed.


End DictionaryFacts.




(** The Chinese look-up raises when the console is broken: the
    announcing [print] raises inside the [try] block, the handler
    catches the exception, and the handler's own [print] raises again,
    outside any handler. *)
Remark chinese_lookup_raises :
  ChineseDictionaryAPI_try str stub_json_loads stub_requests_get
    stub_print_broken (py "down") = Raise BrokenPipeError ∧
  ChineseDictionaryAPI_get_definitions str stub_json_loads stub_requests_get
    stub_print_broken stub_exception_str (py "down") = Raise BrokenPipeError.
Proof. by split. Qed.

(** * Further properties of the table and of the ranking *)

(** X1: the ranking has [top] entries, or as many as there are distinct
    tokens when that is fewer, and none for a [top] below 1. *)
Theorem top_words_length (all_words : list str) (top : Z) :
  length (top_words all_words top) =
  (Z.to_nat top `min` distinct all_words)%nat.
Proof.
  rewrite top_words_sorted, length_take, sorted_reverse_length.
  unfold distinct. by rewrite CounterFacts.size_Counter.
Qed.

(** X2: rankings nest: the ranking for a smaller [n] is the beginning of
    the ranking for a larger one. *)
Theorem most_common_prefix (c : list entry) (n m : Z) :
  n ≤ m → most_common c n = take (Z.to_nat n) (most_common c m).
Proof.
  intros Hnm. rewrite !most_common_sorted, take_take. f_equal. lia.
Qed.

Lemma most_common_prefix_witness :
  let c := Counter.Counter [py "b"; py "a"; py "b"; py "c"; py "c"; py "d"] in
  2 ≤ 3 ∧
  most_common c 3 = [(py "b", 2); (py "c", 2); (py "a", 1)] ∧
  most_common c 2 = take 2 (most_common c 3).
Proof.
  intros c. split; [lia|]. split; [reflexivity|].
  exact (most_common_prefix c 2 3 ltac:(lia)).
Defined.

(** X3: the ranking selects from the table: each listed pair is an entry
    of the table, and an entry that is left out has a count no greater
    than that of any listed one. *)
Theorem top_words_dominate (all_words : list str) (top : Z) :
  (∀ y, y ∈ top_words all_words top → y ∈ Counter.Counter all_words) ∧
  (∀ x y, x ∈ Counter.Counter all_words → x ∉ top_words all_words top →
          y ∈ top_words all_words top → x.2 ≤ y.2).
Proof.
  rewrite top_words_sorted.
  set (c := Counter.Counter all_words). set (n := Z.to_nat top).
  pose proof (sorted_reverse_descending count_lt count_lt_irrefl
                count_lt_trans c) as Hs.
  rewrite <- (take_drop n (sorted_reverse count_lt c)) in Hs.
  split.
  - intros y Hy. rewrite <- (sorted_reverse_perm count_lt c).
    rewrite <- (take_drop n (sorted_reverse count_lt c)).
    apply elem_of_app. by left.
  - intros x y Hx Hout Hy.
    rewrite <- (sorted_reverse_perm count_lt c) in Hx.
    rewrite <- (take_drop n (sorted_reverse count_lt c)) in Hx.
    apply elem_of_app in Hx as [Hx|Hx]; [done|].
    pose proof (StronglySorted_app_1_elem_of _ _ _ _ _ Hs Hy Hx) as Hle.
    unfold count_lt in Hle. simpl in Hle. lia.
Qed.

Lemma top_words_dominate_witness :
  let all_words := [py "b"; py "a"; py "b"; py "c"] in
  ((py "a", 1) ∈ Counter.Counter all_words) ∧
  ((py "a", 1) ∉ top_words all_words 1) ∧
  ((py "b", 2) ∈ top_words all_words 1) ∧
  (py "a", 1).2 ≤ (py "b", 2).2.
Proof.
  intros all_words.
  assert ((py "a", 1) ∈ Counter.Counter all_words) as Hx
    by (right; left).
  assert ((py "a", 1) ∉ top_words all_words 1) as Hout
    by (intros [=]%list_elem_of_singleton).
  assert ((py "b", 2) ∈ top_words all_words 1) as Hy by left.
  split; [exact Hx|]. split; [exact Hout|]. split; [exact Hy|].
  exact (proj2 (top_words_dominate all_words 1) _ _ Hx Hout Hy).
Defined.

Lemma total_incr (w : str) (d : list entry) :
  total (Counter.incr w d) = total d + 1.
Proof.
  induction d as [|[k v] d IH]; cbn; [done|].
  case_decide; cbn; [lia|]. fold (total (Counter.incr w d)) (total d).
  rewrite IH. lia.
Qed.

(** X4: the counts of the table add up to the number of tokens, and no
    entry has a count below 1. *)
Theorem Counter_total (all_words : list str) :
  total (Counter.Counter all_words) = Z.of_nat (length all_words) ∧
  Forall (fun e => 1 ≤ e.2) (Counter.Counter all_words).
Proof.
  split.
  - induction all_words as [|w ws IH] using rev_ind; [done|].
    rewrite CounterFacts.Counter_snoc, total_incr, IH, length_app. simpl. lia.
  - apply Forall_forall. intros [k v] Hin. simpl.
    apply Counter_elem_of_iff in Hin as [Hk ->].
    apply occurrences_pos in Hk. lia.
Qed.

(** X5: looking up a token gives its number of occurrences; the count is
    0 exactly for a token that does not occur, and never negative. *)
Theorem Counter_get_absent (all_words : list str) (t : str) :
  Counter.get (Counter.Counter all_words) t = occurrences t all_words ∧
  0 ≤ Counter.get (Counter.Counter all_words) t ∧
  (Counter.get (Counter.Counter all_words) t = 0 ↔ t ∉ all_words).
Proof.
  rewrite CounterFacts.get_Counter.
  pose proof (occurrences_nonneg t all_words) as Hge.
  pose proof (occurrences_pos t all_words) as Hpos.
  split_and!; [done|done|].
  split; [intros Hz Hin; apply Hpos in Hin; lia|].
  intros Hnin. destruct (decide (0 < occurrences t all_words)); [|lia].
  by destruct Hnin; apply Hpos.
Qed.

Lemma accumulate_concat (per_file : list (list str)) :
  accumulate per_file = concat per_file.
Proof.
  unfold accumulate.
  assert (∀ acc, fold_left (fun a ws => a ++ ws) per_file acc
                 = acc ++ concat per_file) as Hgen; [|apply Hgen].
  induction per_file as [|ws per_file IH]; intros acc; simpl.
  - by rewrite app_nil_r.
  - by rewrite IH, (assoc_L (++)).
Qed.

(** X6: over several files the count of a token is the sum of its counts
    in the tables of the single files. *)
Theorem Counter_accumulate_sum (per_file : list (list str)) (t : str) :
  Counter.get (Counter.Counter (accumulate per_file)) t =
  foldr (fun words s => Counter.get (Counter.Counter words) t + s) 0 per_file.
Proof.
  rewrite CounterFacts.get_Counter, accumulate_concat.
  induction per_file as [|ws per_file IH]; simpl; [done|].
  by rewrite occurrences_app, IH, CounterFacts.get_Counter.
Qed.

(** * Further properties of the English cleaning *)

Lemma runs_concat (keep : char → bool) (text cur : str) :
  concat (runs keep cur text) =
  cur ++ filter (fun c => keep c = true) text.
Proof.
  revert cur. induction text as [|c text IH]; intros cur; simpl.
  - destruct cur; simpl; by rewrite ?app_nil_r.
  - rewrite filter_cons. destruct (keep c) eqn:Hc.
    + rewrite decide_True by done. by rewrite IH, <- (assoc_L (++)).
    + rewrite decide_False by done.
      destruct cur; simpl; by rewrite IH.
Qed.

Lemma runs_break (keep : char → bool) (c : char) (p rest cur : str) :
  keep c = false →
  runs keep cur (p ++ c :: rest) = runs keep cur p ++ runs keep [] rest.
Proof.
  intros Hc. revert cur. induction p as [|d p IH]; intros cur; simpl.
  - rewrite Hc. by destruct cur.
  - destruct (keep d); [apply IH|].
    destruct cur; simpl; by rewrite IH.
Qed.

Lemma runs_join (keep : char → bool) (c : char) (parts : list str) :
  keep c = false →
  runs keep [] (join [c] parts) = concat (map (runs keep []) parts).
Proof.
  intros Hc. induction parts as [|p parts IH]; [done|].
  destruct parts as [|q parts]; [simpl; by rewrite app_nil_r|].
  change (join [c] (p :: q :: parts)) with (p ++ c :: join [c] (q :: parts)).
  by rewrite runs_break, IH.
Qed.

(** X7: the tokens of a text, put together, are its word characters in
    their order: the scan loses and adds none. *)
Theorem findall_concat (unicode_word : char → bool) (text : str) :
  concat (English.findall unicode_word text) =
  filter (fun c => English.is_word unicode_word c = true) text.
Proof. apply runs_concat. Qed.

(** X8: every token that [_clean_text] returns is non-empty, made of
    word characters, and in neither the stop-word set nor the custom
    filter. *)
Theorem clean_text_tokens (unicode_lower : str → str)
    (unicode_word : char → bool) (self : English.TextProcessor)
    (text w : str) :
  w ∈ English._clean_text unicode_lower unicode_word self text →
  w ≠ [] ∧
  Forall (fun c => English.is_word unicode_word c = true) w ∧
  (w ∉ English.stop_words self) ∧ (w ∉ English.custom_filter self).
Proof.
  unfold English._clean_text. rewrite english_filtered_words_filter.
  intros [[Hs Hc] Hw]%list_elem_of_filter.
  apply findall_tokens in Hw as [Hne Hword]. done.
Qed.

Lemma clean_text_tokens_witness :
  let self := English.init [py "a"] (Some {[py "go"]}) in
  let f := English._clean_text (fun s => s) (fun _ => false) self in
  (py "tea_2" ∈ f (py "Go, a Tea_2!")) ∧
  py "tea_2" ≠ [] ∧ (py "tea_2" ∉ English.stop_words self).
Proof.
  intros self f.
  assert (py "tea_2" ∈ f (py "Go, a Tea_2!")) as Hin by left.
  split; [exact Hin|].
  destruct (clean_text_tokens (fun s => s) (fun _ => false) self _ _ Hin)
    as (Hne & _ & Hs & _).
  split; [exact Hne|exact Hs].
Defined.

Lemma map_join (f : char → char) (c : char) (parts : list str) :
  map f (join [c] parts) = join [f c] (map (map f) parts).
Proof.
  induction parts as [|p parts IH]; [done|].
  destruct parts as [|q parts]; [done|].
  change (join [c] (p :: q :: parts)) with (p ++ c :: join [c] (q :: parts)).
  rewrite map_app, map_cons, IH. reflexivity.
Qed.

Lemma forallb_join (P : char → bool) (c : char) (parts : list str) :
  P c = true → Forall (fun p => forallb P p = true) parts →
  forallb P (join [c] parts) = true.
Proof.
  intros Hc. induction 1 as [|p parts Hp Hparts IH]; [done|].
  destruct parts as [|q parts]; [done|].
  change (join [c] (p :: q :: parts)) with (p ++ c :: join [c] (q :: parts)).
  rewrite forallb_app, Hp. cbn [forallb andb]. by rewrite Hc.
Qed.

Lemma english_filtered_words_concat (self : English.TextProcessor)
    (parts : list (list str)) :
  English.filtered_words self (concat parts) =
  concat (map (English.filtered_words self) parts).
Proof.
  induction parts as [|p parts IH]; [done|]. simpl. rewrite <- IH.
  by rewrite !english_filtered_words_filter, filter_app.
Qed.

(** X9: the tokens of paragraphs or captions joined by newlines are the
    tokens of the first, then those of the second, and so on: no token
    spans two of them (for ASCII text, on which [lower] is fixed). *)
Theorem clean_text_join (unicode_lower : str → str)
    (unicode_word : char → bool) (self : English.TextProcessor)
    (parts : list str) :
  Forall (fun p => forallb English.is_ascii p = true) parts →
  English._clean_text unicode_lower unicode_word self (join [NEWLINE] parts)
  = concat
      (map (English._clean_text unicode_lower unicode_word self) parts).
Proof.
  intros Hascii. unfold English._clean_text, English.lower.
  rewrite forallb_join by done. rewrite map_join.
  unfold English.findall. rewrite runs_join by done.
  rewrite english_filtered_words_concat, !map_map. f_equal.
  apply map_ext_Forall. eapply Forall_impl; [exact Hascii|].
  intros p Hp. simpl. by rewrite Hp.
Qed.

Lemma clean_text_join_witness :
  let self := English.init [py "a"] None in
  let f := English._clean_text (fun s => s) (fun _ => false) self in
  Forall (fun p => forallb English.is_ascii p = true)
    [py "Tea"; py "a cup"; py ""] ∧
  f (join [NEWLINE] [py "Tea"; py "a cup"; py ""])
    = concat (map f [py "Tea"; py "a cup"; py ""]) ∧
  f (join [NEWLINE] [py "Tea"; py "a cup"; py ""]) = [py "tea"; py "cup"].
Proof.
  intros self f.
  assert (Forall (fun p => forallb English.is_ascii p = true)
            [py "Tea"; py "a cup"; py ""]) as Hascii
    by (repeat constructor).
  split; [exact Hascii|]. split; [|reflexivity].
  exact (clean_text_join (fun s => s) (fun _ => false) self _ Hascii).
Defined.

Lemma runs_chars (keep : char → bool) (text w : str) (c : char) :
  w ∈ runs keep [] text → c ∈ w → c ∈ text ∧ keep c = true.
Proof.
  intros Hw Hc.
  assert (c ∈ concat (runs keep [] text)) as Hin.
  { apply list_elem_of_In, in_concat. exists w.
    by rewrite <- !list_elem_of_In. }
  rewrite runs_concat in Hin. simpl in Hin.
  apply list_elem_of_filter in Hin as [? ?]. done.
Qed.

(** The words found in the lower-cased form of an ASCII text. *)
Lemma lower_findall_chars (unicode_lower : str → str)
    (unicode_word : char → bool) (text w : str) :
  forallb English.is_ascii text = true →
  w ∈ English.findall unicode_word (English.lower unicode_lower text) →
  Forall (fun c => 97 ≤ c ≤ 122 ∨ 48 ≤ c ≤ 57 ∨ c = 95) w.
Proof.
  intros Hascii Hw. unfold English.lower in Hw. rewrite Hascii in Hw.
  apply Forall_forall. intros c Hc.
  destruct (runs_chars _ _ _ _ Hw Hc) as [Hin Hword].
  apply list_elem_of_fmap in Hin as (c0 & -> & Hc0).
  rewrite forallb_forall in Hascii.
  apply list_elem_of_In, Hascii in Hc0.
  unfold English.is_word, English.is_ascii, English.ascii_lower in *.
  destruct ((65 <=? c0) && (c0 <=? 90)) eqn:Hup.
  - replace ((0 <=? c0 + 32) && (c0 + 32 <? 128)) with true in Hword by lia.
    lia.
  - rewrite Hc0 in Hword. lia.
Qed.

(** X10: on ASCII text every token consists of lower-case letters,
    digits and underscores. *)
Theorem clean_text_lowercase (unicode_lower : str → str)
    (unicode_word : char → bool) (self : English.TextProcessor)
    (text w : str) :
  forallb English.is_ascii text = true →
  w ∈ English._clean_text unicode_lower unicode_word self text →
  Forall (fun c => 97 ≤ c ≤ 122 ∨ 48 ≤ c ≤ 57 ∨ c = 95) w.
Proof.
  intros Hascii Hw. unfold English._clean_text in Hw.
  rewrite english_filtered_words_filter in Hw.
  apply list_elem_of_filter in Hw as [_ Hw].
  by apply (lower_findall_chars unicode_lower unicode_word text).
Qed.

Lemma clean_text_lowercase_witness :
  let self := English.init [py "a"] None in
  let f := English._clean_text (fun s => s) (fun _ => false) self in
  forallb English.is_ascii (py "A Tea_2!") = true ∧
  (py "tea_2" ∈ f (py "A Tea_2!")) ∧
  Forall (fun c => 97 ≤ c ≤ 122 ∨ 48 ≤ c ≤ 57 ∨ c = 95) (py "tea_2").
Proof.
  intros self f.
  assert (py "tea_2" ∈ f (py "A Tea_2!")) as Hin by left.
  split; [reflexivity|]. split; [exact Hin|].
  exact (clean_text_lowercase (fun s => s) (fun _ => false) self
           (py "A Tea_2!") _ eq_refl Hin).
Defined.

Lemma filter_agree {A} (P Q : A → Prop) `{∀ x, Decision (P x)}
    `{∀ x, Decision (Q x)} (l : list A) :
  Forall (fun x => P x ↔ Q x) l → filter P l = filter Q l.
Proof.
  induction 1 as [|x l Hx _ IH]; [done|].
  rewrite !filter_cons, IH. repeat case_decide; tauto.
Qed.

(** X11: an entry with an upper-case ASCII letter in the stop words or
    in the custom filter removes nothing from an ASCII text: the words
    are matched after lower-casing, the entries are taken as given. *)
Theorem clean_text_uppercase_entry (unicode_lower : str → str)
    (unicode_word : char → bool) (stop custom : gset (list Z))
    (entry text : str) :
  forallb English.is_ascii text = true →
  Exists ascii_upper entry →
  English._clean_text unicode_lower unicode_word
    {| English.stop_words := stop ∪ {[entry]};
       English.custom_filter := custom |} text =
  English._clean_text unicode_lower unicode_word
    {| English.stop_words := stop; English.custom_filter := custom |} text ∧
  English._clean_text unicode_lower unicode_word
    {| English.stop_words := stop;
       English.custom_filter := custom ∪ {[entry]} |} text =
  English._clean_text unicode_lower unicode_word
    {| English.stop_words := stop; English.custom_filter := custom |} text.
Proof.
  intros Hascii Hup.
  assert (∀ w, w ∈ English.findall unicode_word (English.lower unicode_lower text)
               → w ≠ entry) as Hne.
  { intros w Hw ->.
    apply lower_findall_chars in Hw; [|done].
    apply Exists_exists in Hup as (c & Hc & Hupper).
    rewrite Forall_forall in Hw. apply Hw in Hc. unfold ascii_upper in *.
    lia. }
  unfold English._clean_text. rewrite !english_filtered_words_filter. simpl.
  split; apply filter_agree, Forall_forall; intros w Hw; apply Hne in Hw;
    rewrite not_elem_of_union, not_elem_of_singleton; tauto.
Qed.

Lemma clean_text_uppercase_entry_witness :
  let f stop custom :=
    English._clean_text (fun s => s) (fun _ => false)
      {| English.stop_words := stop; English.custom_filter := custom |}
      (py "I like tea") in
  forallb English.is_ascii (py "I like tea") = true ∧
  Exists ascii_upper (py "Like") ∧
  f (∅ ∪ {[py "Like"]}) ∅ = f ∅ ∅ ∧
  f ∅ ∅ = [py "i"; py "like"; py "tea"].
Proof.
  intros f.
  assert (Exists ascii_upper (py "Like")) as Hup
    by (left; unfold ascii_upper; simpl; lia).
  split; [reflexivity|]. split; [exact Hup|]. split; [|reflexivity].
  exact (proj1 (clean_text_uppercase_entry (fun s => s) (fun _ => false)
                  ∅ ∅ _ (py "I like tea") eq_refl Hup)).
Defined.

(** * Further properties of [process_file] *)

Lemma endswith_app (stem suffix : str) : endswith (stem ++ suffix) suffix = true.
Proof.
  unfold endswith. apply bool_decide_eq_true.
  rewrite length_app, Nat.add_sub. by rewrite drop_app_length.
Qed.

Lemma endswith_inv (s suffix : str) :
  endswith s suffix = true → ∃ stem, s = stem ++ suffix.
Proof.
  unfold endswith. intros Hs%bool_decide_eq_true.
  exists (take (length s - length suffix) s).
  rewrite <- Hs at 2. by rewrite take_drop.
Qed.

Lemma endswith_last (stem s suffix : str) (c d : char) :
  c ≠ d → endswith (stem ++ s ++ [c]) (suffix ++ [d]) = false.
Proof.
  intros Hcd. apply not_true_iff_false. intros [stem' Heq]%endswith_inv.
  rewrite !(assoc_L (++)) in Heq. by apply app_inj_tail in Heq as [_ ?].
Qed.

(** X12: the reader is chosen by the exact suffix of the path: a path in
    [.srt] goes to the caption reader, one in [.docx] to the document
    reader, and an upper-case [.SRT] or [.DOCX] is read as plain text,
    in both programs. *)
Theorem process_file_dispatch (io : readers) (stem : str) :
  (∀ unicode_lower unicode_word (self : English.TextProcessor),
     let process_file :=
       English.process_file unicode_lower unicode_word io self in
     process_file (stem ++ py ".srt") =
       English._process_srt unicode_lower unicode_word io self
         (stem ++ py ".srt") ∧
     process_file (stem ++ py ".docx") =
       English._process_docx unicode_lower unicode_word io self
         (stem ++ py ".docx") ∧
     process_file (stem ++ py ".SRT") =
       English._process_text unicode_lower unicode_word io self
         (stem ++ py ".SRT") ∧
     process_file (stem ++ py ".DOCX") =
       English._process_text unicode_lower unicode_word io self
         (stem ++ py ".DOCX")) ∧
  (∀ convert lcut (self : Chinese.ChineseTextProcessor),
     let process_file := Chinese.process_file convert lcut io self in
     process_file (stem ++ py ".srt") =
       Chinese._process_srt convert lcut io self (stem ++ py ".srt") ∧
     process_file (stem ++ py ".docx") =
       Chinese._process_docx convert lcut io self (stem ++ py ".docx") ∧
     process_file (stem ++ py ".SRT") =
       Chinese._process_text convert lcut io self (stem ++ py ".SRT") ∧
     process_file (stem ++ py ".DOCX") =
       Chinese._process_text convert lcut io self (stem ++ py ".DOCX")).
Proof.
  pose proof (endswith_last stem [46; 100; 111; 99] [46; 115; 114] 120 116
                ltac:(done)) as H1.
  pose proof (endswith_last stem [46; 83; 82] [46; 115; 114] 84 116
                ltac:(done)) as H2.
  pose proof (endswith_last stem [46; 83; 82] [46; 100; 111; 99] 84 120
                ltac:(done)) as H3.
  pose proof (endswith_last stem [46; 68; 79; 67] [46; 115; 114] 88 116
                ltac:(done)) as H4.
  pose proof (endswith_last stem [46; 68; 79; 67] [46; 100; 111; 99] 88 120
                ltac:(done)) as H5.
  change (endswith (stem ++ py ".docx") (py ".srt") = false) in H1.
  change (endswith (stem ++ py ".SRT") (py ".srt") = false) in H2.
  change (endswith (stem ++ py ".SRT") (py ".docx") = false) in H3.
  change (endswith (stem ++ py ".DOCX") (py ".srt") = false) in H4.
  change (endswith (stem ++ py ".DOCX") (py ".docx") = false) in H5.
  split; intros; unfold process_file, English.process_file,
    Chinese.process_file;
    by rewrite !endswith_app, H1, H2, H3, H4, H5.
Qed.

(** * Loading the Chinese stop words *)

Section Strip.
Variable space : char → bool.






End Strip.



(** X15: stop words of one character or none, such as the empty string
    that a blank line of the file leaves in the set, make no difference:
    the filter drops those tokens anyway. *)
Theorem short_stopwords_redundant (self : Chinese.ChineseTextProcessor)
    (tokens : list str) :
  Chinese.filtered_words self tokens =
  Chinese.filtered_words
    {| Chinese.stopwords :=
         filter (fun w => (1 < length w)%nat) (Chinese.stopwords self);
       Chinese.custom_filter := Chinese.custom_filter self |} tokens.
Proof.
  rewrite !chinese_filtered_words_filter. simpl.
  apply list_filter_iff. intros w. rewrite elem_of_filter. tauto.
Qed.

(** * From the files to the ranking *)

Section RankedWords.
Variable process_file : str → outcome (list str).

Lemma extend_all_elem (files : list str) (all_words words : list str)
    (w : str) :
  extend_all process_file all_words files = Return words → w ∈ words →
  w ∈ all_words ∨
  ∃ file tokens,
    file ∈ files ∧ process_file file = Return tokens ∧ w ∈ tokens.
Proof.
  revert all_words. induction files as [|file files IH];
    intros all_words Hret Hw; simpl in Hret.
  - injection Hret as <-. by left.
  - destruct (process_file file) as [tokens|e] eqn:Hfile; [|done].
    simpl in Hret. destruct (IH _ Hret Hw) as [Hin|(f & ts & Hf & Hts & Hin)].
    + apply elem_of_app in Hin as [Hin|Hin]; [by left|right].
      exists file, tokens. split_and!; [left|done|done].
    + right. exists f, ts. split_and!; [by right|done|done].
Qed.

(** Every ranked word was returned by [process_file] for one of the
    files, and its count is at least 1. *)
Lemma main_top_words_elem (files : list str) (top : Z)
    (ranked : list entry) (w : str) (c : Z) :
  main_top_words process_file files top = Return ranked →
  (w, c) ∈ ranked →
  1 ≤ c ∧
  ∃ file tokens,
    file ∈ files ∧ process_file file = Return tokens ∧ w ∈ tokens.
Proof.
  unfold main_top_words, main_word_counts. intros Hret Hin.
  destruct (extend_all process_file [] files) as [all_words|e] eqn:Hall;
    [|done].
  simpl in Hret. injection Hret as <-.
  rewrite most_common_sorted in Hin.
  apply elem_of_take in Hin as (i & Hin%list_elem_of_lookup_2 & _).
  rewrite sorted_reverse_perm in Hin.
  apply Counter_elem_of_iff in Hin as [Hw ->]. split.
  - apply occurrences_pos in Hw. lia.
  - destruct (extend_all_elem _ _ _ _ Hall Hw) as [Hnil|?]; [|done].
    by apply elem_of_nil in Hnil.
Qed.
End RankedWords.

Lemma english_process_file_Return (unicode_lower : str → str)
    (unicode_word : char → bool) (io : readers)
    (self : English.TextProcessor) (path : str) (tokens : list str) :
  English.process_file unicode_lower unicode_word io self path
    = Return tokens →
  ∃ text, tokens = English._clean_text unicode_lower unicode_word self text.
Proof.
  unfold English.process_file, English._process_srt, English._process_docx,
    English._process_text, mbind, outcome_bind.
  repeat case_match; intros; simplify_eq; by eexists.
Qed.

Lemma chinese_process_file_Return (convert : str → str)
    (lcut : str → list str) (io : readers)
    (self : Chinese.ChineseTextProcessor) (path : str) (tokens : list str) :
  Chinese.process_file convert lcut io self path = Return tokens →
  ∃ text, tokens = Chinese._process_content convert lcut self text.
Proof.
  unfold Chinese.process_file, Chinese._process_srt, Chinese._process_docx,
    Chinese._process_text, mbind, outcome_bind.
  repeat case_match; intros; simplify_eq; by eexists.
Qed.

(** X16: whatever the files hold, a word ranked by the English program
    occurs at least once, is non-empty, consists of word characters, and
    is neither a stop word nor in the custom filter. *)
Theorem english_ranked_words (unicode_lower : str → str)
    (unicode_word : char → bool) (io : readers)
    (self : English.TextProcessor) (files : list str) (top : Z)
    (ranked : list entry) (w : str) (c : Z) :
  main_top_words (English.process_file unicode_lower unicode_word io self)
    files top = Return ranked →
  (w, c) ∈ ranked →
  1 ≤ c ∧ w ≠ [] ∧
  Forall (fun ch => English.is_word unicode_word ch = true) w ∧
  (w ∉ English.stop_words self) ∧ (w ∉ English.custom_filter self).
Proof.
  intros Hret Hin.
  destruct (main_top_words_elem _ _ _ _ _ _ Hret Hin)
    as (Hc & file & tokens & _ & Hfile & Hw).
  apply english_process_file_Return in Hfile as [text ->].
  unfold English._clean_text in Hw.
  rewrite english_filtered_words_filter in Hw.
  apply list_elem_of_filter in Hw as [[Hs Hf] Hw].
  apply findall_tokens in Hw as [Hne Hword]. done.
Qed.

Lemma english_ranked_words_witness :
  let self := English.init [py "and"] None in
  let process_file :=
    English.process_file (fun s => s) (fun _ => false) stub_readers self in
  main_top_words process_file [py "good.txt"; py "good.txt"] 5
    = Return [(py "tea", 4)] ∧
  ((py "tea", 4) ∈ [(py "tea", 4)]) ∧
  1 ≤ 4 ∧ py "tea" ≠ [] ∧ (py "tea" ∉ English.stop_words self).
Proof.
  intros self process_file.
  assert (main_top_words process_file [py "good.txt"; py "good.txt"] 5
          = Return [(py "tea", 4)]) as Hret by reflexivity.
  assert ((py "tea", 4) ∈ [(py "tea", 4)]) as Hin by left.
  split; [exact Hret|]. split; [exact Hin|].
  destruct (english_ranked_words (fun s => s) (fun _ => false) stub_readers
              self _ _ _ _ _ Hret Hin) as (Hc & Hne & _ & Hs & _).
  split; [exact Hc|]. split; [exact Hne|exact Hs].
Defined.

(** X17: whatever the files hold and whatever the segmenter returns, a
    word ranked by the Chinese program occurs at least once, has at least
    two characters, and is neither a stop word nor in the custom filter. *)
Theorem chinese_ranked_words (convert : str → str) (lcut : str → list str)
    (io : readers) (self : Chinese.ChineseTextProcessor)
    (files : list str) (top : Z) (ranked : list entry) (w : str) (c : Z) :
  main_top_words (Chinese.process_file convert lcut io self) files top
    = Return ranked →
  (w, c) ∈ ranked →
  1 ≤ c ∧ (2 ≤ length w)%nat ∧
  (w ∉ Chinese.stopwords self) ∧ (w ∉ Chinese.custom_filter self).
Proof.
  intros Hret Hin.
  destruct (main_top_words_elem _ _ _ _ _ _ Hret Hin)
    as (Hc & file & tokens & _ & Hfile & Hw).
  apply chinese_process_file_Return in Hfile as [text ->].
  unfold Chinese._process_content in Hw.
  rewrite chinese_filtered_words_filter in Hw.
  apply list_elem_of_filter in Hw as [(Hlen & Hs & Hf) _].
  split_and!; [done|lia|done|done].
Qed.

Lemma chinese_ranked_words_witness :
  let self := {| Chinese.stopwords := ∅; Chinese.custom_filter := ∅ |} in
  let process_file :=
    Chinese.process_file stub_convert stub_lcut stub_chinese_readers self in
  let w : str := [0x4f60; 0x597d] in
  main_top_words process_file [py "zh.txt"] 3 = Return [(w, 2)] ∧
  ((w, 2) ∈ [(w, 2)]) ∧
  1 ≤ 2 ∧ (2 ≤ length w)%nat.
Proof.
  intros self process_file w.
  assert (main_top_words process_file [py "zh.txt"] 3 = Return [(w, 2)])
    as Hret by reflexivity.
  assert ((w, 2) ∈ [(w, 2)]) as Hin by left.
  split; [exact Hret|]. split; [exact Hin|].
  destruct (chinese_ranked_words stub_convert stub_lcut stub_chinese_readers
              self _ _ _ _ _ Hret Hin) as (Hc & Hlen & _ & _).
  split; [exact Hc|exact Hlen].
Defined.

(** X18: when every file is read, the table is that of the token lists
    of the files put one after the other in the order of the files. *)
Theorem main_word_counts_concat (process_file : str → outcome (list str))
    (files : list str) (per_file : list (list str)) :
  Forall2 (fun file words => process_file file = Return words)
    files per_file →
  main_word_counts process_file files =
  Return (Counter.Counter (concat per_file)).
Proof.
  intros Hall. rewrite <- accumulate_concat.
  by apply main_word_counts_Return.
Qed.

Lemma main_word_counts_concat_witness :
  let process_file :=
    English.process_file (fun s => s) (fun _ => false) stub_readers
      (English.init [py "and"] None) in
  Forall2 (fun file words => process_file file = Return words)
    [py "good.txt"; py "good.txt"]
    [[py "tea"; py "tea"]; [py "tea"; py "tea"]] ∧
  main_word_counts process_file [py "good.txt"; py "good.txt"]
    = Return (Counter.Counter
                (concat [[py "tea"; py "tea"]; [py "tea"; py "tea"]])).
Proof.
  intros process_file.
  assert (Forall2 (fun file words => process_file file = Return words)
            [py "good.txt"; py "good.txt"]
            [[py "tea"; py "tea"]; [py "tea"; py "tea"]]) as Hall
    by (repeat constructor).
  split; [exact Hall|].
  exact (main_word_counts_concat process_file _ _ Hall).
Defined.

(** * Further properties of the Chinese pipeline *)

Lemma filter_none {A} (P : A → Prop) `{∀ x, Decision (P x)} (l : list A) :
  Forall (fun x => ¬ P x) l → filter P l = [].
Proof.
  induction 1 as [|x l Hx _ IH]; [done|].
  by rewrite filter_cons, decide_False.
Qed.

Lemma concat_elem_of {A} (ls : list (list A)) (l : list A) (x : A) :
  l ∈ ls → x ∈ l → x ∈ concat ls.
Proof.
  induction 1 as [l ls|l l' ls _ IH]; simpl; rewrite elem_of_app; auto.
Qed.

Lemma concat_singletons {A} (x : A) (ls : list (list A)) :
  Forall (fun l => l = [x]) ls → length (concat ls) = length ls.
Proof. induction 1 as [|l ls -> _ IH]; [done|]. simpl. by rewrite IH. Qed.

(** X19: a text that holds no Chinese character after conversion is
    handed to the segmenter as a run of spaces; a segmenter that cuts
    white space as [jieba.lcut] does returns one token per character,
    each a single space, and [_process_content] drops them all. *)
Theorem process_content_no_chinese (convert : str → str)
    (lcut : str → list str) (self : Chinese.ChineseTextProcessor)
    (text : str) :
  cuts lcut (Chinese.normalized convert text) →
  Forall (fun c => ¬ chinese c) (convert text) →
  Forall (fun w => w = [SPACE]) (lcut (Chinese.normalized convert text)) ∧
  length (lcut (Chinese.normalized convert text)) = length (convert text) ∧
  Chinese._process_content convert lcut self text = [].
Proof.
  intros [Hconcat Htokens] Hnone.
  assert (Chinese.normalized convert text
          = replicate (length (convert text)) SPACE) as Hspaces.
  { unfold Chinese.normalized. rewrite re_sub_range_filter.
    unfold range_filter_spec.
    induction Hnone as [|c l Hc _ IH]; [done|]. simpl.
    by rewrite decide_False, IH. }
  assert (Forall (fun w => w = [SPACE])
            (lcut (Chinese.normalized convert text))) as Hall.
  { apply Forall_forall. intros w Hw.
    destruct (Htokens w Hw) as [Hne Hspace].
    destruct w as [|c w]; [done|]. apply Hspace.
    assert (c ∈ Chinese.normalized convert text) as Hc.
    { rewrite <- Hconcat. eapply concat_elem_of; [exact Hw|left]. }
    rewrite Hspaces in Hc. apply elem_of_replicate in Hc as [-> _]. left. }
  split_and!.
  - exact Hall.
  - rewrite <- (concat_singletons SPACE) by exact Hall.
    by rewrite Hconcat, Hspaces, length_replicate.
  - unfold Chinese._process_content.
    fold (Chinese.normalized convert text).
    rewrite chinese_filtered_words_filter.
    apply filter_none. eapply Forall_impl; [exact Hall|].
    intros w -> (Hlen & _). simpl in Hlen. lia.
Qed.

Lemma process_content_no_chinese_witness :
  let self := {| Chinese.stopwords := ∅; Chinese.custom_filter := ∅ |} in
  cuts stub_cut (Chinese.normalized stub_convert (py "ok!")) ∧
  Forall (fun c => ¬ chinese c) (stub_convert (py "ok!")) ∧
  stub_cut (Chinese.normalized stub_convert (py "ok!"))
    = [[SPACE]; [SPACE]; [SPACE]] ∧
  Chinese._process_content stub_convert stub_cut self (py "ok!") = [].
Proof.
  intros self.
  assert (cuts stub_cut (Chinese.normalized stub_convert (py "ok!")))
    as Hcuts.
  { split; [reflexivity|]. intros w Hw. vm_compute in Hw.
    repeat (apply elem_of_cons in Hw as [->|Hw]);
      [done..|by apply elem_of_nil in Hw]. }
  assert (Forall (fun c => ¬ chinese c) (stub_convert (py "ok!")))
    as Hnone.
  { apply Forall_forall. intros c Hc. unfold chinese.
    vm_compute in Hc. repeat (apply elem_of_cons in Hc as [->|Hc]);
      [lia..|by apply elem_of_nil in Hc]. }
  split; [exact Hcuts|]. split; [exact Hnone|]. split; [reflexivity|].
  exact (proj2 (proj2 (process_content_no_chinese stub_convert stub_cut
                         self _ Hcuts Hnone))).
Defined.

(** * Further properties of the dictionary look-up *)

(** X20: a look-up returns data only from a response with status 200
    whose body the parser accepts, and then it returns the parsed body;
    the Chinese look-up moreover only after its announcing [print] has
    returned.  Whatever the handlers do, they never produce data. *)
Theorem get_definitions_data (json : Type)
    (json_loads : str → outcome json)
    (requests_get : str → outcome response)
    (print : str → outcome unit) (exception_str : exception → str)
    (word : str) :
  let english :=
    DictionaryAPI_get_definitions json json_loads requests_get word in
  let chinese :=
    ChineseDictionaryAPI_get_definitions json json_loads requests_get
      print exception_str word in
  let english_url :=
    py "https://api.dictionaryapi.dev/api/v2/entries/en/" ++ word in
  let chinese_url := py "https://api.openccce.com/cedict/" ++ word in
  (∀ data, english = Return (Some data) ↔
           ∃ r, requests_get english_url = Return r ∧ status_code r = 200 ∧
                json_loads (content r) = Return data) ∧
  (∀ data, chinese = Return (Some data) ↔
           print (py "Fetching definition for: " ++ word) = Return tt ∧
           ∃ r, requests_get chinese_url = Return r ∧ status_code r = 200 ∧
                json_loads (content r) = Return data).
Proof.
  intros english chinese english_url chinese_url. split.
  - intros data. etrans; [|apply fetch_Return_Some].
    unfold english, DictionaryAPI_get_definitions, try_except.
    destruct (fetch _ _ _ _ word) as [d|e]; [done|].
    by destruct (is_RequestException e).
  - intros data.
    unfold chinese, ChineseDictionaryAPI_get_definitions,
      ChineseDictionaryAPI_try, try_except, is_Exception.
    destruct (print (py "Fetching definition for: " ++ word)) as [[]|e0];
      unfold mbind, outcome_bind; cbn beta iota.
    + etrans; [|apply and_iff_compat_l, fetch_Return_Some].
      destruct (fetch _ _ _ _ word) as [d|e].
      { split; [intros ?; by split|by intros [_ ?]]. }
      destruct (print (py "API Error: " ++ exception_str e)) as [[]|e'];
        (split; [done|by intros [_ ?]]).
    + destruct (print (py "API Error: " ++ exception_str e0)) as [[]|e'];
        (split; [done|by intros [? _]]).
Qed.

(** * The report *)

Lemma lookups_app (evs evs' : list event) :
  lookups (evs ++ evs') = lookups evs ++ lookups evs'.
Proof. apply omap_app. Qed.

Lemma writes_app (evs evs' : list event) :
  writes (evs ++ evs') = writes evs ++ writes evs'.
Proof. apply omap_app. Qed.

Lemma events_bind {A B} (m : action A) (f : A → action B) :
  events (m ≫= f) =
  events m ++ match result m with
              | inl _ => []
              | inr a => events (f a)
              end.
Proof.
  unfold mbind, action_bind. destruct (result m); simpl; [|done].
  by rewrite app_nil_r.
Qed.

Lemma result_bind {A B} (m : action A) (f : A → action B) :
  result (m ≫= f) =
  match result m with
  | inl e => inl e
  | inr a => result (f a)
  end.
Proof. unfold mbind, action_bind. by destruct (result m). Qed.

Lemma lookups_bind {A B} (m : action A) (f : A → action B) :
  lookups (events (m ≫= f)) =
  lookups (events m) ++ match result m with
                        | inl _ => []
                        | inr a => lookups (events (f a))
                        end.
Proof. rewrite events_bind, lookups_app. by destruct (result m). Qed.

Lemma quiet_eval {A} (r : error + A) : quiet (eval r).
Proof. done. Qed.

Lemma quiet_write (s : str) : quiet (write s).
Proof. unfold quiet, write. by destruct (existsb surrogate s). Qed.

Lemma quiet_bind {A B} (m : action A) (f : A → action B) :
  quiet m → (∀ a, quiet (f a)) → quiet (m ≫= f).
Proof.
  unfold quiet, mbind, action_bind. intros Hm Hf.
  destruct (result m) as [e|a]; simpl; [done|].
  by rewrite lookups_app, Hm, Hf.
Qed.

Lemma quiet_for_each {A} (l : list A) (body : A → action unit) :
  (∀ x, quiet (body x)) → quiet (for_each l body).
Proof.
  intros Hbody. induction l as [|x l IH]; simpl; [done|].
  by apply quiet_bind.
Qed.

Lemma quiet_write_meaning (repr : pyval → str) (meaning : pyval) :
  quiet (write_meaning repr meaning).
Proof.
  unfold write_meaning.
  repeat first
    [ apply quiet_bind; [|intros ?]
    | apply quiet_eval
    | apply quiet_write
    | match goal with |- quiet (if ?b then _ else _) => destruct b end ].
Qed.

Lemma quiet_write_entry (repr : pyval → str) (entry : pyval) :
  quiet (write_entry repr entry).
Proof.
  unfold write_entry.
  repeat first
    [ apply quiet_bind; [|intros ?]
    | apply quiet_eval
    | apply quiet_for_each; intros ?; apply quiet_write_meaning
    | match goal with |- quiet (if ?b then _ else _) => destruct b end ].
Qed.

Section ReportFacts.
Variable json_loads : str → outcome pyval.
Variable requests_get : str → outcome response.
Variable repr : pyval → str.

Lemma lookups_write_word (ranked : entry) :
  let a := write_word json_loads requests_get repr ranked in
  (lookups (events a) = [] ∨ lookups (events a) = [ranked.1]) ∧
  (result a = inr tt → lookups (events a) = [ranked.1]).
Proof.
  destruct ranked as [word count]. unfold write_word.
  set (header := [NEWLINE] ++ _). cbn zeta.
  rewrite lookups_bind, result_bind, (quiet_write header : lookups _ = []).
  destruct (result (write header)) as [e|[]]; [by split; [left|]|].
  rewrite lookups_bind.
  assert (∀ data,
    quiet (_ ← (if from_option truthy false data then
                  items ← eval (from_option iterate (inl TypeError) data);
                  for_each items (write_entry repr)
                else write (py "No definition found" ++ [NEWLINE]));
           write (replicate 50 45 ++ [NEWLINE]))) as Hq.
  { intros data. apply quiet_bind; [|intros ?; apply quiet_write].
    destruct (from_option truthy false data); [|apply quiet_write].
    apply quiet_bind; [apply quiet_eval|intros ?].
    apply quiet_for_each. intros ?. apply quiet_write_entry. }
  change (lookups (events (get_definitions json_loads requests_get word)))
    with [word].
  destruct (result (get_definitions json_loads requests_get word)) as [e|data];
    [by split; [right|]|].
  rewrite (Hq data : lookups _ = []). by split; [right|].
Qed.

Lemma lookups_write_report (ranked : list entry) :
  let a := write_report json_loads requests_get repr ranked in
  lookups (events a) `prefix_of` ranked.*1 ∧
  (result a = inr tt → lookups (events a) = ranked.*1).
Proof.
  unfold write_report.
  induction ranked as [|r ranked [IHp IHr]]; cbn zeta.
  - split; [by exists []|done].
  - destruct (lookups_write_word r) as [Hw Hr]. cbn zeta in Hw, Hr.
    cbn [for_each]. rewrite lookups_bind, result_bind.
    destruct (result (write_word json_loads requests_get repr r))
      as [e|[]] eqn:Hres.
    + rewrite app_nil_r. split; [|done].
      destruct Hw as [-> | ->]; [by eexists|by exists ranked.*1].
    + rewrite (Hr eq_refl). split.
      * by apply prefix_cons.
      * intros Hok. cbn [app]. by rewrite (IHr Hok).
Qed.
End ReportFacts.

(** X21: the report looks words up in rank order, each ranked word at
    most once, and stops at the first exception: the words looked up are
    a beginning of the ranking, all of it when the report completes, so
    that there are never more than [top] requests. *)
Theorem report_lookups_bounded (json_loads : str → outcome pyval)
    (requests_get : str → outcome response) (repr : pyval → str)
    (all_words : list str) (top : Z) :
  let ranked := top_words all_words top in
  let a := write_report json_loads requests_get repr ranked in
  lookups (events a) `prefix_of` ranked.*1 ∧
  NoDup (lookups (events a)) ∧
  (length (lookups (events a)) ≤ Z.to_nat top)%nat ∧
  (result a = inr tt → lookups (events a) = ranked.*1).
Proof.
  intros ranked a.
  destruct (lookups_write_report json_loads requests_get repr ranked)
    as [Hp Hr].
  fold a in Hp, Hr. split_and!; [done| | |done].
  - destruct Hp as [rest Hp].
    assert (NoDup ranked.*1) as Hnd.
    { unfold ranked. rewrite top_words_sorted, fmap_take.
      eapply sublist_NoDup; [|apply sublist_take].
      rewrite sorted_reverse_perm. apply CounterFacts.keys_NoDup. }
    rewrite Hp in Hnd. by apply NoDup_app in Hnd as [? _].
  - apply prefix_length in Hp. rewrite length_fmap in Hp.
    unfold ranked in Hp. rewrite top_words_sorted, length_take in Hp. lia.
Qed.

Lemma report_lookups_bounded_witness :
  let ranked := top_words [py "down"; py "tea"; py "down"] 2 in
  let a := write_report stub_loads stub_requests_get (fun _ => []) ranked in
  result a = inr tt ∧
  lookups (events a) = ranked.*1 ∧
  lookups (events a) = [py "down"; py "tea"].
Proof.
  intros ranked a.
  assert (result a = inr tt) as Hok by reflexivity.
  split; [exact Hok|]. split; [|reflexivity].
  exact (proj2 (proj2 (proj2 (report_lookups_bounded stub_loads
                                stub_requests_get (fun _ => [])
                                [py "down"; py "tea"; py "down"] 2))) Hok).
Defined.

Lemma py_no_surrogate (s : string) : existsb surrogate (py s) = false.
Proof.
  induction s as [|c s IH]; [done|]. simpl. rewrite IH, orb_false_r.
  pose proof (N_ascii_bounded c). unfold surrogate. lia.
Qed.

Lemma write_ok (s : str) :
  existsb surrogate s = false → write s = Action [Write s] (inr tt).
Proof. unfold write. by intros ->. Qed.

Lemma eval_bind {A B} (a : A) (f : A → action B) : eval (inr a) ≫= f = f a.
Proof. unfold mbind, action_bind. simpl. by destruct (f a). Qed.

Lemma bind_Action {A B} (evs : list event) (a : A) (f : A → action B) :
  Action evs (inr a) ≫= f = Action (evs ++ events (f a)) (result (f a)).
Proof. done. Qed.

(** X22: when the look-up of every ranked word gives nothing ([None], or
    an empty or otherwise false value) and no word holds a surrogate, the
    report completes, and it consists, for each word in rank order, of
    the heading with the count, the line "No definition found" and the
    rule of 50 dashes. *)
Theorem report_without_definitions (json_loads : str → outcome pyval)
    (requests_get : str → outcome response) (repr : pyval → str)
    (ranked : list entry) :
  Forall (fun r =>
            existsb surrogate r.1 = false ∧
            ∃ data,
              DictionaryAPI_get_definitions pyval json_loads requests_get r.1
                = Return data ∧
              from_option truthy false data = false) ranked →
  write_report json_loads requests_get repr ranked =
  Action
    (concat
       (map (fun r =>
               [Write ([NEWLINE] ++ py "Word: " ++ r.1 ++ py " (Frequency: "
                       ++ str_int r.2 ++ py ")" ++ [NEWLINE]);
                Lookup r.1;
                Write (py "No definition found" ++ [NEWLINE]);
                Write (replicate 50 45 ++ [NEWLINE])]) ranked))
    (inr tt).
Proof.
  unfold write_report.
  induction 1 as [|[word count] ranked (Hword & data & Hdata & Hfalse) _ IH];
    [done|].
  cbn [for_each map concat fst snd]. rewrite IH. clear IH.
  unfold write_word, get_definitions. cbn [fst snd] in *.
  rewrite Hdata.
  set (header := [NEWLINE] ++ py "Word: " ++ word ++ py " (Frequency: "
                 ++ str_int count ++ py ")" ++ [NEWLINE]).
  assert (write header = Action [Write header] (inr tt)) as ->.
  { apply write_ok. unfold header, str_int.
    by rewrite !existsb_app, Hword, !py_no_surrogate. }
  rewrite (write_ok (py "No definition found" ++ [NEWLINE])) by done.
  rewrite (write_ok (replicate 50 45 ++ [NEWLINE])) by done.
  rewrite !bind_Action. cbn beta iota. rewrite Hfalse.
  rewrite !bind_Action. cbn [events result].
  reflexivity.
Qed.

Lemma report_without_definitions_witness :
  let ranked := [(py "down", 2); (py "tea", 1)] in
  Forall (fun r =>
            existsb surrogate r.1 = false ∧
            ∃ data,
              DictionaryAPI_get_definitions pyval stub_loads
                stub_requests_get r.1 = Return data ∧
              from_option truthy false data = false) ranked ∧
  writes (events (write_report stub_loads stub_requests_get (fun _ => [])
                    ranked)) =
  [[NEWLINE] ++ py "Word: down (Frequency: 2)" ++ [NEWLINE];
   py "No definition found" ++ [NEWLINE];
   replicate 50 45 ++ [NEWLINE];
   [NEWLINE] ++ py "Word: tea (Frequency: 1)" ++ [NEWLINE];
   py "No definition found" ++ [NEWLINE];
   replicate 50 45 ++ [NEWLINE]].
Proof.
  intros ranked.
  assert (Forall (fun r =>
            existsb surrogate r.1 = false ∧
            ∃ data,
              DictionaryAPI_get_definitions pyval stub_loads
                stub_requests_get r.1 = Return data ∧
              from_option truthy false data = false) ranked) as Hall.
  { repeat constructor; by exists None. }
  split; [exact Hall|].
  rewrite (report_without_definitions stub_loads stub_requests_get
             (fun _ => []) ranked Hall).
  reflexivity.
Defined.

Lemma dict_get_elem_of (items : list (list Z * pyval)) (key : str)
    (v : pyval) :
  dict_get items key = Some v → key ∈ items.*1.
Proof.
  induction items as [|[k x] items IH]; [done|]. cbn.
  case_decide; [intros _; subst; left|intros ?; right; auto].
Qed.

Lemma dict_get_not_elem_of (items : list (list Z * pyval)) (key : str) :
  dict_get items key = None → key ∉ items.*1.
Proof.
  induction items as [|[k x] items IH]; cbn; [intros _; apply not_elem_of_nil|].
  case_decide; [done|]. intros ?. apply not_elem_of_cons. auto.
Qed.

(** X23: of a meaning the report writes the part of speech and the
    first definition with its example only: two meanings with the same
    part of speech and the same first definition are written alike,
    whatever definitions follow. *)
Theorem write_meaning_first_definition (repr : pyval → str)
    (items items' : list (list Z * pyval)) (first : pyval)
    (rest rest' : list pyval) :
  dict_get items (py "partOfSpeech") = dict_get items' (py "partOfSpeech") →
  dict_get items (py "definitions") = Some (PList (first :: rest)) →
  dict_get items' (py "definitions") = Some (PList (first :: rest')) →
  write_meaning repr (PDict items) = write_meaning repr (PDict items').
Proof.
  intros Hpart Hdefs Hdefs'. unfold write_meaning, getitem, contains.
  rewrite Hpart, Hdefs, Hdefs'.
  rewrite !bool_decide_eq_true_2 by (by eapply dict_get_elem_of).
  reflexivity.
Qed.

Lemma write_meaning_first_definition_witness :
  let first := PDict [(py "definition", PStr (py "a drink"))] in
  let items := [(py "partOfSpeech", PStr (py "noun"));
                (py "definitions", PList [first; PStr (py "more")])] in
  let items' := [(py "definitions", PList [first]);
                 (py "partOfSpeech", PStr (py "noun"))] in
  writes (events (write_meaning (fun _ => []) (PDict items))) =
    [py "Part of Speech: noun" ++ [NEWLINE];
     py "Definition: a drink" ++ [NEWLINE]; [NEWLINE]] ∧
  write_meaning (fun _ => []) (PDict items)
    = write_meaning (fun _ => []) (PDict items').
Proof.
  intros first items items'. split; [reflexivity|].
  exact (write_meaning_first_definition (fun _ => []) items items' first
           [PStr (py "more")] [] eq_refl eq_refl eq_refl).
Defined.

(** X24: how a meaning fails.  A meaning that is not an object raises
    [TypeError], one without the key [partOfSpeech] raises [KeyError],
    both before anything is written; one whose list of definitions is
    empty raises [IndexError] after its part of speech was written. *)
Theorem write_meaning_errors (repr : pyval → str) :
  (∀ meaning, (∀ items, meaning ≠ PDict items) →
     write_meaning repr meaning = Action [] (inl TypeError)) ∧
  (∀ items, dict_get items (py "partOfSpeech") = None →
     write_meaning repr (PDict items) = Action [] (inl KeyError)) ∧
  (∀ items part,
     dict_get items (py "partOfSpeech") = Some part →
     existsb surrogate (format repr part) = false →
     dict_get items (py "definitions") = Some (PList []) →
     write_meaning repr (PDict items) =
     Action [Write (py "Part of Speech: " ++ format repr part ++ [NEWLINE])]
       (inl IndexError)).
Proof.
  split_and!.
  - intros meaning Hnot. destruct meaning; try done. by destruct (Hnot items).
  - intros items Hpart. unfold write_meaning, getitem. by rewrite Hpart.
  - intros items part Hpart Hs Hdefs. unfold write_meaning, getitem, contains.
    rewrite Hpart, Hdefs.
    rewrite bool_decide_eq_true_2 by (by eapply dict_get_elem_of).
    rewrite eval_bind.
    rewrite (write_ok (py "Part of Speech: " ++ format repr part ++ [NEWLINE]))
      by (by rewrite !existsb_app, Hs, py_no_surrogate).
    reflexivity.
Qed.

Lemma write_meaning_errors_witness :
  let items := [(py "partOfSpeech", PStr (py "noun"));
                (py "definitions", PList [])] in
  dict_get items (py "partOfSpeech") = Some (PStr (py "noun")) ∧
  existsb surrogate (format (fun _ => []) (PStr (py "noun"))) = false ∧
  dict_get items (py "definitions") = Some (PList []) ∧
  write_meaning (fun _ => []) (PDict items) =
  Action [Write (py "Part of Speech: noun" ++ [NEWLINE])] (inl IndexError).
Proof.
  intros items. split; [reflexivity|]. split; [reflexivity|].
  split; [reflexivity|].
  exact (proj2 (proj2 (write_meaning_errors (fun _ => []))) items
           (PStr (py "noun")) eq_refl eq_refl eq_refl).
Defined.


